(** * The legacy (Frontier) transaction signer of polygon-edge

    A shallow embedding of [crypto/txsigner_frontier.go]: the hash of a
    transaction, the recovery of its sender, the signing of a transaction
    and the computation of its V value, together with the parts of Go's
    [math/big] and of byte slices that these four methods rely on. *)

From Stdlib Require Import ZArith Lia.
From Stdlib Require Init.Byte Strings.Byte DecimalString.
From Stdlib Require Import Ascii.
From stdpp Require Import base option list strings gmap.

Local Open Scope Z_scope.
Set Default Proof Using "Type".

(** ** Bytes *)

Abbreviation byte := Init.Byte.byte.

(** The numeric value of a byte, between 0 and 255. *)
Definition byte_val (b : byte) : Z := Z.of_N (Byte.to_N b).

(** Go's conversion [byte(x)] of an integer: the low eight bits. *)
Definition byte_of_Z (z : Z) : byte :=
  default Byte.x00 (Byte.of_N (Z.to_N (z mod 256))).

(** ** [math/big]: the operations on [big.Int] that the signer uses

    A [*big.Int] is an arbitrary-precision signed integer, here a [Z]; a nil
    pointer is [None] at the places where the code tests for it. *)
Module big.

(** [x.SetBytes(buf)]: [buf] read as a big-endian unsigned integer. *)
Definition SetBytes (buf : list byte) : Z :=
  fold_left (fun acc b => acc * 256 + byte_val b) buf 0.

(** The big-endian digits of [n] in base 256, most significant first,
    pushed in front of [acc]. *)
Fixpoint be_digits (fuel : nat) (n : Z) (acc : list byte) : list byte :=
  match fuel with
  | O => acc
  | S fuel' =>
      if n <=? 0 then acc
      else be_digits fuel' (n / 256) (byte_of_Z n :: acc)
  end.

(** [x.Bytes()]: the absolute value of [x] as a big-endian byte slice
    without leading zero bytes; the empty slice for 0. *)
Definition Bytes (x : Z) : list byte :=
  be_digits (S (Z.to_nat (Z.log2 (Z.abs x)))) (Z.abs x) [].

(** [z.Add(x, y)] and [z.Sub(x, y)]. *)
Definition Add (x y : Z) : Z := x + y.
Definition Sub (x y : Z) : Z := x - y.

(** Two's complement wrap-around of an integer to 64 signed bits. *)
Definition wrap_int64 (z : Z) : Z := (z + 2 ^ 63) mod 2 ^ 64 - 2 ^ 63.

(** [x.Int64()]: the low 64 bits of the magnitude as an [int64], negated
    when [x] is negative (what the library computes also when [x] does not
    fit in an [int64]). *)
Definition Int64 (x : Z) : Z :=
  let v := wrap_int64 (Z.land (Z.abs x) (Z.ones 64)) in
  if x <? 0 then wrap_int64 (- v) else v.

(** [big.NewInt(x)] for an [int64] [x]. *)
Definition NewInt (x : Z) : Z := x.

End big.

(** Magic numbers from Ethereum, used in v calculation. *)
Definition big27 : Z := big.NewInt 27.
Definition big35 : Z := big.NewInt 35.

(** ** Byte slices *)

(** [s[lo:hi]], which panics ([None]) unless [lo <= hi <= len(s)]. *)
Definition slice (s : list byte) (lo hi : nat) : option (list byte) :=
  if decide (lo ≤ hi ∧ hi ≤ length s)%nat
  then Some (take (hi - lo) (drop lo s))
  else None.

(** [s[lo:]]. *)
Definition slice_from (s : list byte) (lo : nat) : option (list byte) :=
  slice s lo (length s).

(** [buf] right-aligned in [n] bytes, zero bytes in front. *)
Definition leftPad (n : nat) (buf : list byte) : list byte :=
  replicate (n - length buf) Byte.x00 ++ buf.

(** [buf] without its leading zero bytes. *)
Fixpoint trimLeftZeros (buf : list byte) : list byte :=
  match buf with
  | b :: rest => if Byte.eqb b Byte.x00 then trimLeftZeros rest else buf
  | [] => []
  end.

(** A byte slice is canonical when it does not start with a zero byte. *)
Definition canonical (l : list byte) : Prop :=
  match l with
  | [] => True
  | b :: _ => byte_val b ≠ 0
  end.

(** ** Results *)

(** The error kinds of the signing core. *)
Inductive Error : Type :=
| InvalidSignature
| SigningFailure
| RecoveryFailure
| EncodingFailure.

(** What a call comes to: a value, a returned [error], or a run-time panic
    (an index or slice bound out of range, a nil dereference). *)
Inductive outcome (A : Type) : Type :=
| Ok (a : A)
| Err (e : Error)
| Panic.
Arguments Ok {A} a.
Arguments Err {A} e.
Arguments Panic {A}.

(** Whether a call returned the error [InvalidSignature]. *)
Definition isInvalidSignature {A : Type} (o : outcome A) : bool :=
  match o with
  | Err InvalidSignature => true
  | _ => false
  end.

(** ** The [types] package: transactions and addresses *)

Definition Address : Type := list byte.
Definition Hash32 : Type := list byte.

(** Modelled from the spec: the record [types.Transaction], which is not
    part of the excerpt. Nonce and gas limit are unsigned integers, the
    recipient is absent for a contract creation, gas price, value and the
    signature triple are [*big.Int] and may be nil. *)
Record Transaction : Type := mkTransaction {
  txNonce : Z;
  txGasPrice : option Z;
  txGas : Z;
  txTo : option Address;
  txValue : option Z;
  txInput : list byte;
  txV : option Z;
  txR : option Z;
  txS : option Z
}.

Definition setR (r : option Z) (t : Transaction) : Transaction :=
  mkTransaction (txNonce t) (txGasPrice t) (txGas t) (txTo t) (txValue t)
    (txInput t) (txV t) r (txS t).
Definition setS (s : option Z) (t : Transaction) : Transaction :=
  mkTransaction (txNonce t) (txGasPrice t) (txGas t) (txTo t) (txValue t)
    (txInput t) (txV t) (txR t) s.
Definition setV (v : option Z) (t : Transaction) : Transaction :=
  mkTransaction (txNonce t) (txGasPrice t) (txGas t) (txTo t) (txValue t)
    (txInput t) v (txR t) (txS t).

Definition AddressLength : nat := 20.

(** Modelled from the spec: [types.BytesToAddress], which is not part of the
    excerpt. The address is the low 20 bytes of the slice, with zero bytes in
    front when the slice is shorter. *)
Definition BytesToAddress (b : list byte) : Address :=
  leftPad AddressLength (drop (length b - AddressLength) b).

(** ** The heap of transactions

    [SignTx] receives and returns a [*types.Transaction]. A pointer is a
    location of a finite map; the nil pointer is a location the map does not
    hold. *)
Abbreviation loc := positive.
Abbreviation heap := (gmap loc Transaction).

(** Modelled from the spec: the method [Copy] of [Transaction], which is not
    part of the excerpt. It allocates a new transaction that holds the fields of the
    receiver, and panics on a nil receiver. *)
Definition Copy (tx : loc) (h : heap) : option (loc * heap) :=
  match h !! tx with
  | None => None
  | Some t => let l := fresh (dom h) in Some (l, <[l := t]> h)
  end.

(** ** The fields handed to the canonical encoder *)

Inductive RlpValue : Type :=
| RlpUint (n : Z)
| RlpBigInt (x : option Z)
| RlpNull
| RlpBytes (b : list byte).

(** A call to the elliptic-curve recovery primitive, as it is observed from
    outside: the digest and the 65-byte signature it is given. *)
Inductive Call : Type :=
| EcrecoverCall (digest sig : list byte).

(** ** Go strings

    A Go string is a sequence of bytes; [len] counts bytes. The functions of
    the package [strings] that the command-line tools call. *)
Module gostrings.

(** [s[n:]] and [s[:n]], for [n] within the string. *)
Fixpoint drop (n : nat) (s : string) : string :=
  match n, s with
  | O, _ => s
  | S n', String _ s' => drop n' s'
  | S _, EmptyString => EmptyString
  end.

Fixpoint take (n : nat) (s : string) : string :=
  match n, s with
  | O, _ => EmptyString
  | S n', String c s' => String c (take n' s')
  | S _, EmptyString => EmptyString
  end.

(** [strings.HasPrefix(s, prefix)]. *)
Definition HasPrefix (s prefix : string) : bool :=
  String.prefix prefix s.

(** [strings.HasSuffix(s, suffix)]. *)
Definition HasSuffix (s suffix : string) : bool :=
  (String.length suffix <=? String.length s)%nat
  && String.eqb (drop (String.length s - String.length suffix) s) suffix.

(** [strings.TrimPrefix(s, prefix)]: [s] without the leading [prefix], or
    [s] itself when it does not start with [prefix]. *)
Definition TrimPrefix (s prefix : string) : string :=
  if HasPrefix s prefix then drop (String.length prefix) s else s.

(** [strings.TrimSuffix(s, suffix)]. *)
Definition TrimSuffix (s suffix : string) : string :=
  if HasSuffix s suffix
  then take (String.length s - String.length suffix) s
  else s.

(** [strings.Split(s, sep)] for a separator of one byte, which is what both
    callers pass: the substrings between the separators, one more than there
    are separators. *)
Fixpoint Split (s : string) (sep : ascii) : list string :=
  match s with
  | EmptyString => [EmptyString]
  | String c s' =>
      if Ascii.eqb c sep then EmptyString :: Split s' sep
      else
        match Split s' sep with
        | part :: parts => String c part :: parts
        | [] => [String c EmptyString]
        end
  end.

(** [strings.Join(elems, sep)]. *)
Definition Join (elems : list string) (sep : string) : string :=
  String.concat sep elems.

(** [strings.Replace(s, old, new, -1)] for a non-empty [old], as the
    callers pass: the occurrences of [old] are replaced from left to right,
    without overlap. [skip] counts the bytes of a replaced occurrence that
    are still to be passed over. *)
Fixpoint replaceFrom (old new : string) (skip : nat) (s : string) : string :=
  match s with
  | EmptyString => EmptyString
  | String c s' =>
      match skip with
      | S skip' => replaceFrom old new skip' s'
      | O =>
          if String.prefix old s
          then new +:+ replaceFrom old new (String.length old - 1) s'
          else String c (replaceFrom old new 0 s')
      end
  end.

Definition Replace (s old new : string) : string :=
  replaceFrom old new 0 s.

(** Whether [sub] occurs in [s]. *)
Fixpoint Contains (s sub : string) : bool :=
  String.prefix sub s
  || match s with
     | EmptyString => false
     | String _ s' => Contains s' sub
     end.

(** The number of bytes of [s] equal to [c]. *)
Fixpoint count (c : ascii) (s : string) : nat :=
  match s with
  | EmptyString => O
  | String d s' => (if Ascii.eqb d c then 1 else 0) + count c s'
  end.

End gostrings.

(** The line feed and the colon. *)
Definition LF : ascii := Ascii.ascii_of_nat 10.
Definition colon : ascii := Ascii.ascii_of_nat 58.

(** What a call of the command-line tools comes to: a value, an error of
    type [E], or a run-time panic. *)
Inductive gores (E A : Type) : Type :=
| ROk (a : A)
| RErr (e : E)
| RPanic.
Arguments ROk {E A} a.
Arguments RErr {E A} e.
Arguments RPanic {E A}.

(** ** The manifest command: [command/polybftmanifest/manifest_init.go] *)

Definition nodeIDLength : nat := 53.
Definition ecdsaAddressLength : nat := 42.
Definition blsKeyLength : nat := 2.

(** The fields of [polybft.Validator] that the command sets. *)
Record Validator : Type := mkValidator {
  NodeID : string;
  ValidatorAddress : Address;
  BlsKey : string;
  Balance : option Z;
  Stake : option Z
}.

Record manifestInitParams : Type := mkParams {
  manifestPath : string;
  validatorsPath : string;
  validatorsPrefixPath : string;
  premineValidators : string;
  premineBalance : option Z;
  stakeRaw : string;
  stake : option Z;
  validators : list string
}.

(** The errors that the command builds with [fmt.Errorf], one constructor
    for each format string, with the values that are formatted into it; an
    error of a collaborator is its message. *)
Inductive ManifestError : Type :=
| ErrPathNotExist (path : string)
| ErrInvalidPremine (raw : string) (cause : string)
| ErrInvalidStake (raw : string) (cause : string)
| ErrStakeGreater (stake premineBalance : Z)
| ErrParts (n : nat)
| ErrNodeID (part : string)
| ErrAddress (part : string)
| ErrBlsKey (part : string)
| ErrReadValidators (cause : string).

(** The collaborators of the command: whether [os.Stat] of a path fails with
    [os.ErrNotExist], [types.ParseUint256orHex], [types.StringToAddress],
    [path.Dir] and [genesis.ReadValidatorsByPrefix], whose validators are
    not nil. *)
Record ManifestEnv : Type := mkManifestEnv {
  statNotExist : string → bool;
  ParseUint256orHex : string → string + Z;
  StringToAddress : string → Address;
  pathDir : string → string;
  ReadValidatorsByPrefix : string → string → string + list Validator
}.

(** [validateFlags]: the parameters after the call and the returned error.
    The balance and the stake are written only when every check passed. The
    message for a stake that does not parse is formatted with
    [p.premineValidators]. *)
Definition validateFlags (env : ManifestEnv) (p : manifestInitParams)
  : manifestInitParams * option ManifestError :=
  if statNotExist env (validatorsPath p)
  then (p, Some (ErrPathNotExist (validatorsPath p)))
  else
    match ParseUint256orHex env (premineValidators p) with
    | inl err => (p, Some (ErrInvalidPremine (premineValidators p) err))
    | inr premine =>
        let checked : ManifestError + option Z :=
          if String.eqb (stakeRaw p) EmptyString then inr None
          else
            match ParseUint256orHex env (stakeRaw p) with
            | inl err => inl (ErrInvalidStake (premineValidators p) err)
            | inr stk =>
                if stk >? premine then inl (ErrStakeGreater stk premine)
                else inr (Some stk)
            end in
        match checked with
        | inl err => (p, Some err)
        | inr stk =>
            (mkParams (manifestPath p) (validatorsPath p)
               (validatorsPrefixPath p) (premineValidators p) (Some premine)
               (stakeRaw p) stk (validators p),
             None)
        end
    end.

(** One turn of the loop over [p.validators]: the checks on the three parts
    of an entry and the validator that is built from it. *)
Definition parseValidator (env : ManifestEnv) (balance : option Z)
    (stk : Z) (validator : string) : ManifestError + Validator :=
  let parts := gostrings.Split validator colon in
  match parts with
  | [part0; part1; part2] =>
      if negb (String.length part0 =? nodeIDLength)%nat
      then inl (ErrNodeID part0)
      else if negb (String.length part1 =? ecdsaAddressLength)%nat
      then inl (ErrAddress part1)
      else if (String.length part2 <? blsKeyLength)%nat
      then inl (ErrBlsKey part2)
      else inr (mkValidator part0 (StringToAddress env part1) part2
                  balance (Some stk))
  | _ => inl (ErrParts (length parts))
  end.

(** The loop over [p.validators], which returns at the first entry that
    fails a check. *)
Fixpoint parseValidators (env : ManifestEnv) (balance : option Z) (stk : Z)
    (entries : list string) : ManifestError + list Validator :=
  match entries with
  | [] => inr []
  | validator :: rest =>
      match parseValidator env balance stk validator with
      | inl err => inl err
      | inr v =>
          match parseValidators env balance stk rest with
          | inl err => inl err
          | inr vs => inr (v :: vs)
          end
      end
  end.

Definition setFunds (balance : option Z) (stk : Z) (v : Validator)
  : Validator :=
  mkValidator (NodeID v) (ValidatorAddress v) (BlsKey v) balance (Some stk).

(** The stake that [getValidatorAccounts] works with: [p.stake], or the
    premine balance when [p.stake] is nil. *)
Definition effectiveStake (p : manifestInitParams) : option Z :=
  match stake p with
  | Some s => Some s
  | None => premineBalance p
  end.

(** [getValidatorAccounts] gathers validator accounts info either from CLI
    or from provided local storage. A nil stake is replaced by a copy of the
    premine balance, which panics when that is nil too. *)
Definition getValidatorAccounts (env : ManifestEnv) (p : manifestInitParams)
  : gores ManifestError (list Validator) :=
  match effectiveStake p with
  | None => RPanic
  | Some stk =>
      if (0 <? length (validators p))%nat
      then
        match parseValidators env (premineBalance p) stk (validators p) with
        | inl err => RErr err
        | inr vs => ROk vs
        end
      else
        let dir :=
          if String.eqb (validatorsPath p) EmptyString
          then pathDir env (manifestPath p)
          else validatorsPath p in
        match ReadValidatorsByPrefix env dir (validatorsPrefixPath p) with
        | inl err => RErr (ErrReadValidators err)
        | inr vs => ROk (map (setFunds (premineBalance p) stk) vs)
        end
  end.

(** A validator given on the command line, [<node id>:<address>:<bls key>],
    and what the command requires of its three parts. *)
Definition cliEntry (e : string * string * string) : string :=
  let '(nodeID, addr, blsKey) := e in
  nodeID +:+ String colon (addr +:+ String colon blsKey).

Definition cliEntryOk (e : string * string * string) : Prop :=
  let '(nodeID, addr, blsKey) := e in
  String.length nodeID = nodeIDLength
  ∧ String.length addr = ecdsaAddressLength
  ∧ (blsKeyLength ≤ String.length blsKey)%nat
  ∧ gostrings.count colon nodeID = 0%nat
  ∧ gostrings.count colon addr = 0%nat
  ∧ gostrings.count colon blsKey = 0%nat.

(** The validator that the command builds from the three parts. *)
Definition cliValidator (env : ManifestEnv) (balance : option Z) (stk : Z)
    (e : string * string * string) : Validator :=
  let '(nodeID, addr, blsKey) := e in
  mkValidator nodeID (StringToAddress env addr) blsKey balance (Some stk).

(** ** The generator of contract bindings

    The type description of the ABI library, as far as the generator reads
    it: the kind, the size of an array, the element of a slice or array (nil
    for the other kinds), the elements of a tuple with their names, the text
    of the Go type, the text of [Format(true)] and the internal type. *)
Inductive Kind : Type :=
| KindBool | KindUint | KindInt | KindString | KindArray | KindSlice
| KindAddress | KindBytes | KindFixedBytes | KindFixedPoint | KindTuple
| KindFunction.

Definition Kind_eqb (a b : Kind) : bool :=
  match a, b with
  | KindBool, KindBool | KindUint, KindUint | KindInt, KindInt
  | KindString, KindString | KindArray, KindArray | KindSlice, KindSlice
  | KindAddress, KindAddress | KindBytes, KindBytes
  | KindFixedBytes, KindFixedBytes | KindFixedPoint, KindFixedPoint
  | KindTuple, KindTuple | KindFunction, KindFunction => true
  | _, _ => false
  end.

#[warnings="-register-all"]
Inductive AbiType : Type :=
| mkAbiType (kind : Kind) (size : Z) (elem : option AbiType)
    (tuple : list (string * AbiType)) (goType format itype : string).

Definition KindOf (t : AbiType) : Kind :=
  match t with mkAbiType k _ _ _ _ _ _ => k end.
Definition Size (t : AbiType) : Z :=
  match t with mkAbiType _ n _ _ _ _ _ => n end.
Definition Elem (t : AbiType) : option AbiType :=
  match t with mkAbiType _ _ e _ _ _ _ => e end.
Definition TupleElems (t : AbiType) : list (string * AbiType) :=
  match t with mkAbiType _ _ _ l _ _ _ => l end.
Definition GoTypeString (t : AbiType) : string :=
  match t with mkAbiType _ _ _ _ g _ _ => g end.
Definition Format (t : AbiType) : string :=
  match t with mkAbiType _ _ _ _ _ f _ => f end.
Definition InternalType (t : AbiType) : string :=
  match t with mkAbiType _ _ _ _ _ _ i => i end.

(** A value handed to a template: a string or a list of strings. *)
Inductive TmplValue : Type :=
| TmplString (s : string)
| TmplList (l : list string).

(** The collaborators of the generator: [strings.Title], [strings.ToLower]
    and the execution of a template on its inputs. *)
Record GenEnv : Type := mkGenEnv {
  Title : string → string;
  ToLower : string → string;
  execTemplate : string → gmap string TmplValue → string
}.

Definition dot : ascii := Ascii.ascii_of_nat 46.
Definition DQ : string := String (Ascii.ascii_of_nat 34) EmptyString.
Definition NL : string := String LF EmptyString.
Definition TAB : string := String (Ascii.ascii_of_nat 9) EmptyString.

(** [getInternalType]: the name of the Go struct for a parameter. *)
Definition getInternalType (env : GenEnv) (paramName : string)
    (paramAbiType : AbiType) : string :=
  let internalType := InternalType paramAbiType in
  if String.eqb internalType EmptyString
  then Title env paramName
  else
    let internalType := gostrings.TrimSuffix internalType "[]" in
    let internalType := gostrings.TrimPrefix internalType "struct " in
    let parts := gostrings.Split internalType dot in
    if (1 <? length parts)%nat
    then default EmptyString (parts !! 1%nat)
    else internalType.

(** [encodeFuncTuple], which panics on a type that is not a tuple. *)
Definition encodeFuncTuple (t : AbiType) : gores unit string :=
  if negb (Kind_eqb (KindOf t) KindTuple) then RPanic
  else
    let str := Format t in
    let str := gostrings.TrimPrefix str "tuple(" in
    let str := gostrings.TrimSuffix str ")" in
    ROk str.

(** [renderTmpl]; the templates of the generator parse and execute, so the
    two panics of the source are not reached. *)
Definition renderTmpl (env : GenEnv) (tmplStr : string)
    (inputs : gmap string TmplValue) : string :=
  execTemplate env tmplStr inputs.

Definition nestedTypeTmpl : string :=
  "func ({{.Sig}} *{{.TName}}) EncodeAbi() ([]byte, error) {" +:+ NL
  +:+ TAB +:+ TAB +:+ "return {{.Name}}ABIType.Encode({{.Sig}})" +:+ NL
  +:+ TAB +:+ "}" +:+ NL
  +:+ TAB +:+ NL
  +:+ TAB +:+ "func ({{.Sig}} *{{.TName}}) DecodeAbi(buf []byte) error {"
  +:+ NL
  +:+ TAB +:+ TAB
  +:+ "return decodeStruct({{.Name}}ABIType, buf, &{{.Sig}})" +:+ NL
  +:+ TAB +:+ "}".

(** [genAbiFuncsForNestedType], which panics on the empty name, whose
    first byte it reads. *)
Definition genAbiFuncsForNestedType (env : GenEnv) (name : string)
  : gores unit string :=
  let title := Title env name in
  match name with
  | EmptyString => RPanic
  | String c _ =>
      ROk (renderTmpl env nestedTypeTmpl
             {[ "Sig" := TmplString (String c EmptyString);
                "Name" := TmplString title;
                "TName" := TmplString title ]})
  end.

(** The second half of [genNestedType]: after [genType] has returned
    [result], the declaration of the ABI type and the encode and decode
    functions are appended, and the pointer type is returned. *)
Definition afterGenType (env : GenEnv) (obj : AbiType)
    (r : gores unit (string * list string))
  : gores unit (string * list string) :=
  match r with
  | ROk (result, res) =>
      let res :=
        res ++ ["var " +:+ result +:+ "ABIType = abi.MustNewType(" +:+ DQ
                +:+ Format obj +:+ DQ +:+ ")"] in
      match genAbiFuncsForNestedType env result with
      | ROk funcs => ROk ("*" +:+ result, res ++ [funcs])
      | RErr e => RErr e
      | RPanic => RPanic
      end
  | RErr e => RErr e
  | RPanic => RPanic
  end.

(** The text of a struct field: the Go type with the byte arrays renamed,
    the name without a leading underscore, in title case and with [Id]
    written [ID], and the ABI tag. *)
Definition fieldType (typ : string) : string :=
  let typ := gostrings.Replace typ "[32]uint8" "types.Hash" in
  gostrings.Replace typ "]uint8" "]byte".

Definition fieldName (env : GenEnv) (name : string) : string :=
  let fieldName := gostrings.TrimPrefix name "_" in
  let fieldName := Title env fieldName in
  gostrings.Replace fieldName "Id" "ID".

Definition fieldLine (env : GenEnv) (name typ : string) : string :=
  fieldName env name +:+ " " +:+ fieldType typ
  +:+ " `abi:" +:+ DQ +:+ name +:+ DQ +:+ "`".

(** The Go type of one element of a tuple in [genType], with the structs
    that are generated for it appended to [res]; [gen] is [genType] itself.
    It panics on a slice or array without element. *)
Definition genElemType (env : GenEnv)
    (gen : string → AbiType → list string → gores unit (string * list string))
    (elemName : string) (elem : AbiType) (res : list string)
  : gores unit (string * list string) :=
  if Kind_eqb (KindOf elem) KindTuple
  then afterGenType env elem (gen elemName elem res)
  else
    match elem with
    | mkAbiType k n inner _ g _ _ =>
        if Kind_eqb k KindSlice || Kind_eqb k KindArray
        then
          match inner with
          | None => RPanic
          | Some sub =>
              if Kind_eqb (KindOf sub) KindTuple
              then
                match
                  afterGenType env sub
                    (gen (getInternalType env elemName elem) sub res)
                with
                | ROk (t, res) =>
                    ROk ((if Kind_eqb k KindSlice then "[]"
                          else "["
                               +:+ DecimalString.NilZero.string_of_int
                                     (Z.to_int n)
                               +:+ "]") +:+ t, res)
                | RErr e => RErr e
                | RPanic => RPanic
                end
              else ROk (g, res)
          end
        else if Kind_eqb k KindAddress
        then ROk ("types.Address", res)
        else ROk (g, res)
    end.

(** The loop of [genType] over the elements of the tuple: [str] collects
    the lines of the struct. *)
Fixpoint genFields (env : GenEnv)
    (gen : string → AbiType → list string → gores unit (string * list string))
    (elems : list (string * AbiType)) (str res : list string)
  : gores unit (list string * list string) :=
  match elems with
  | [] => ROk (str, res)
  | (elemName, elem) :: rest =>
      match genElemType env gen elemName elem res with
      | ROk (typ, res) =>
          genFields env gen rest (str ++ [fieldLine env elemName typ]) res
      | RErr e => RErr e
      | RPanic => RPanic
      end
  end.

(** [genType]: the struct for a tuple is appended to [res] after the
    structs of its nested tuples, and its name is returned. It panics on a
    type that is not a tuple. *)
Fixpoint genType (env : GenEnv) (name : string) (obj : AbiType)
    (res : list string) {struct obj} : gores unit (string * list string) :=
  if negb (Kind_eqb (KindOf obj) KindTuple) then RPanic
  else
    let internalType := getInternalType env name obj in
    match
      genFields env (genType env) (TupleElems obj)
        ["type " +:+ internalType +:+ " struct {"] res
    with
    | ROk (str, res) =>
        ROk (internalType, res ++ [gostrings.Join (str ++ ["}"]) NL])
    | RErr e => RErr e
    | RPanic => RPanic
    end.

(** [genNestedType]. *)
Definition genNestedType (env : GenEnv) (name : string) (obj : AbiType)
    (res : list string) : gores unit (string * list string) :=
  afterGenType env obj (genType env name obj res).

(** The structs that [genType] generates for the nested tuples of a type:
    one for each element that is a tuple, or a slice or array of tuples, and
    those of that tuple in turn. *)
Fixpoint nestedStructs (t : AbiType) : nat :=
  list_sum
    (map (fun x : string * AbiType =>
            let e := x.2 in
            if Kind_eqb (KindOf e) KindTuple then S (nestedStructs e)
            else
              match e with
              | mkAbiType k _ inner _ _ _ _ =>
                  if Kind_eqb k KindSlice || Kind_eqb k KindArray
                  then
                    match inner with
                    | Some sub =>
                        if Kind_eqb (KindOf sub) KindTuple
                        then S (nestedStructs sub)
                        else O
                    | None => O
                    end
                  else O
              end)
       (TupleElems t)).

(** The structs that [genType] generates for one element of a tuple. *)
Definition elemStructs (e : AbiType) : nat :=
  if Kind_eqb (KindOf e) KindTuple then S (nestedStructs e)
  else
    match e with
    | mkAbiType k _ inner _ _ _ _ =>
        if Kind_eqb k KindSlice || Kind_eqb k KindArray
        then
          match inner with
          | Some sub =>
              if Kind_eqb (KindOf sub) KindTuple
              then S (nestedStructs sub)
              else O
          | None => O
          end
        else O
    end.

(** The result of a call that appended [added] to an empty list, when the
    list held [res] before. *)
Definition shiftRes {A : Type} (res : list string)
    (r : gores unit (A * list string)) : gores unit (A * list string) :=
  match r with
  | ROk (x, added) => ROk (x, res ++ added)
  | RErr e => RErr e
  | RPanic => RPanic
  end.

(** [gen] only appends on the type [t]. *)
Definition appendsOn
    (gen : string → AbiType → list string → gores unit (string * list string))
    (t : AbiType) : Prop :=
  ∀ name res, gen name t res = shiftRes res (gen name t []).

(** [genType] appends one entry for the type and three for each nested
    struct. *)
Definition countsOn (env : GenEnv) (t : AbiType) : Prop :=
  ∀ name r added,
    genType env name t [] = ROk (r, added) →
    length added = (1 + 3 * nestedStructs t)%nat.

(** ** A small instance of the command-line tools

    An environment for the manifest command and one for the generator, with
    the parameters and the types on which the statements are exercised. *)
Definition demoManifestEnv : ManifestEnv :=
  mkManifestEnv
    (fun path => String.eqb path "missing")
    (fun s =>
       if String.eqb s "1000" then inr 1000
       else if String.eqb s "400" then inr 400
       else if String.eqb s "2000" then inr 2000
       else inl "invalid number")
    (fun s => String.list_byte_of_string s)
    (fun _ => ".")
    (fun dir _ =>
       if String.eqb dir "."
       then inr [mkValidator "node" [] "bls" None None]
       else inl "no such directory").

Definition demoNodeID : string :=
  "16Uiu2HAmMYyzK7c649Tnn186i16iYLCjY2yeHixFEGWHm8ZuqRtH".
Definition demoAddr : string :=
  "0xde9cb0d6d6e3a1b1c3b0f8c0e2d6c3d4b5a69788".
Definition demoBls : string := "0xabcdef".

Definition demoFlags : manifestInitParams :=
  mkParams "./manifest.json" "keys" "test-chain-" "1000" None "400" None
    [cliEntry (demoNodeID, demoAddr, demoBls)].

Definition demoParams (entries : list string) : manifestInitParams :=
  mkParams "./manifest.json" "" "test-chain-" "1000" (Some 1000) "400"
    (Some 400) entries.

Definition demoGenEnv : GenEnv :=
  mkGenEnv
    (fun s =>
       match s with
       | String "v" r => String "V" r
       | String "i" r => String "I" r
       | _ => s
       end)
    (fun s => s)
    (fun _ _ => "rendered").

Definition demoUint : AbiType :=
  mkAbiType KindUint 256 None [] "*big.Int" "uint256" "uint256".
Definition demoHash : AbiType :=
  mkAbiType KindFixedBytes 32 None [] "[32]uint8" "bytes32" "bytes32".
Definition demoAddress : AbiType :=
  mkAbiType KindAddress 0 None [] "ethgo.Address" "address" "address".
Definition demoStruct : AbiType :=
  mkAbiType KindTuple 0 None
    [("_address", demoAddress); ("votingPower", demoUint)]
    "struct" "tuple(address _address,uint256 votingPower)"
    "struct ICheckpoint.Validator".
Definition demoSlice : AbiType :=
  mkAbiType KindSlice 0 (Some demoStruct) [] "[]struct"
    "tuple(address _address,uint256 votingPower)[]"
    "struct ICheckpoint.Validator[]".
Definition demoInputs : AbiType :=
  mkAbiType KindTuple 0 None
    [("id", demoUint); ("hash", demoHash); ("validatorId", demoSlice);
     ("v", demoStruct)]
    "struct" "tuple(uint256 id,bytes32 hash)" "".

Definition demoGenerated : string * list string :=
  match genType demoGenEnv "commitFunction" demoInputs ["old"] with
  | ROk x => x
  | _ => (EmptyString, [])
  end.

(** ** A small instance of the collaborators

    An encoder, a digest and a sign and recover pair that compute, on which
    the statements below are exercised. They stand in for the real
    primitives only there. *)

Definition demoEncodeField (v : RlpValue) : list byte :=
  match v with
  | RlpUint n => Byte.x01 :: big.Bytes n
  | RlpBigInt None => [Byte.x02]
  | RlpBigInt (Some x) => Byte.x03 :: big.Bytes x
  | RlpNull => [Byte.x04]
  | RlpBytes b => Byte.x05 :: b
  end.

Definition demoEncode (fields : list RlpValue) : list byte :=
  concat (map demoEncodeField fields).

Definition demoDigest (data : list byte) : list byte :=
  leftPad 32 (drop (length data - 32) data).

Definition demoPublicKey (k : byte) : list byte :=
  Byte.x04 :: replicate 64 k.

Definition demoSign (k : byte) (digest : list byte) : option (list byte) :=
  Some (replicate 30 Byte.x00 ++ [Byte.x01; k]
        ++ replicate 31 Byte.x00 ++ [Byte.x02]
        ++ [Byte.x01]).

Definition demoRecover (digest sig : list byte) : option (list byte) :=
  match sig !! 31%nat with
  | Some k => Some (demoPublicKey k)
  | None => None
  end.

(** The transaction of the concrete scenario: nonce 0, gas price 1, gas
    21000, a known recipient, value 0, empty payload, not signed. *)
Definition demoTx : Transaction :=
  mkTransaction 0 (Some 1) 21000 (Some (replicate 20 Byte.x11)) (Some 0) []
    None None None.

(** The same transaction with a signature of [demoSign] for the key 7. *)
Definition demoSigned : Transaction :=
  mkTransaction 0 (Some 1) 21000 (Some (replicate 20 Byte.x11)) (Some 0) []
    (Some 28) (Some 263) (Some 2).

Definition demoHeap : heap := {[ 1%positive := demoTx ]}.

(** ** The signer *)

Section Signer.

(** The external collaborators: the key material, the canonical encoder,
    the digest primitive, and the elliptic-curve primitive, which signs a
    digest with a key and recovers a public key from a digest and a
    signature. *)
Variable PrivateKey : Type.
Variable publicKeyOf : PrivateKey → list byte.
Variable Encode : list RlpValue → list byte.
Variable Keccak256 : list byte → list byte.
Variable ec_sign : PrivateKey → list byte → option (list byte).
Variable ec_recover : list byte → list byte → option (list byte).

(** Modelled from the spec: [crypto.Sign], which is not part of the
    excerpt. It hands the key and the digest to the primitive and fails
    with [SigningFailure] when the primitive does. *)
Definition Sign (priv : PrivateKey) (hash : list byte)
  : outcome (list byte) :=
  match ec_sign priv hash with
  | Some sig => Ok sig
  | None => Err SigningFailure
  end.

(** Modelled from the spec: [crypto.Ecrecover], which is not part of the
    excerpt. It fails with [RecoveryFailure] when the primitive does. *)
Definition Ecrecover (hash sig : list byte) : outcome (list byte) :=
  match ec_recover hash sig with
  | Some pub => Ok pub
  | None => Err RecoveryFailure
  end.

(** The six unsigned fields of a transaction, in the order of the hash. *)
Definition txFields (tx : Transaction) : list RlpValue :=
  [ RlpUint (txNonce tx);
    RlpBigInt (txGasPrice tx);
    RlpUint (txGas tx);
    match txTo tx with
    | None => RlpNull
    | Some a => RlpBytes a
    end;
    RlpBigInt (txValue tx);
    RlpBytes (txInput tx) ].

(** Modelled from the spec: [calcTxHash], which is not part of the excerpt.
    The field list is the six unsigned fields, followed for a
    replay-protected scheme (a chain identifier other than 0) by the chain
    identifier and two zero placeholders; it is encoded and digested. *)
Definition calcTxHash (tx : Transaction) (chainID : Z) : Hash32 :=
  Keccak256
    (Encode
       (txFields tx ++
        if chainID =? 0 then []
        else [RlpUint chainID; RlpUint 0; RlpUint 0])).

(** A serialized scalar that is neither empty nor longer than 32 bytes. *)
Definition scalarOk (buf : list byte) : bool :=
  (0 <? length buf)%nat && (length buf <=? 32)%nat.

(** Modelled from the spec: [encodeSignature], which is not part of the
    excerpt. It fails with [InvalidSignature] unless the parity is 0 or 1
    and R and S are present, not of zero length and at most 32 bytes long;
    the signature is R and S left-padded to 32 bytes each, then the
    parity. *)
Definition encodeSignature (R S : option Z) (V : byte)
  : outcome (list byte) :=
  match R, S with
  | Some r, Some s =>
      if (byte_val V <=? 1)
         && scalarOk (big.Bytes r) && scalarOk (big.Bytes s)
      then Ok (leftPad 32 (big.Bytes r) ++ leftPad 32 (big.Bytes s) ++ [V])
      else Err InvalidSignature
  | _, _ => Err InvalidSignature
  end.

(** Modelled from the spec: the address of a public key; the digest of
    the uncompressed key without its prefix byte, of which the low 20 bytes
    are kept. *)
Definition AddressOf (pub : list byte) : Address :=
  BytesToAddress (drop 12 (Keccak256 (drop 1 pub))).

(** [Hash] is a wrapper function for the [calcTxHash], with chainID 0. *)
Definition Hash (tx : Transaction) : Hash32 :=
  calcTxHash tx 0.

(** The parity byte that [Sender] passes on: [refV] is 0, or the magnitude
    of [tx.V] when [tx.V] is not nil; 27 is subtracted and the result is
    converted through [Int64] to a byte. *)
Definition senderParity (v : option Z) : byte :=
  let refV := big.NewInt 0 in
  let refV :=
    match v with
    | Some x => big.SetBytes (big.Bytes x)
    | None => refV
    end in
  let refV := big.Sub refV big27 in
  byte_of_Z (big.Int64 refV).

(** [Sender] decodes the signature and returns the sender of the
    transaction. It only reads the transaction, which is passed by value.
    The first component lists the calls to the recovery primitive that were
    made. *)
Definition Sender (tx : Transaction) : list Call * outcome Address :=
  match encodeSignature (txR tx) (txS tx) (senderParity (txV tx)) with
  | Err e => ([], Err e)
  | Panic => ([], Panic)
  | Ok sig =>
      let digest := Hash tx in
      ([EcrecoverCall digest sig],
       match Ecrecover digest sig with
       | Err e => Err e
       | Panic => Panic
       | Ok pub =>
           match slice_from pub 1 with
           | None => Panic
           | Some key =>
               match slice_from (Keccak256 key) 12 with
               | None => Panic
               | Some buf => Ok (BytesToAddress buf)
               end
           end
       end)
  end.

(** [CalculateV] returns the V value for transactions pre EIP155. *)
Definition CalculateV (parity : byte) : list byte :=
  let reference := big.NewInt (byte_val parity) in
  let reference := big.Add reference big27 in
  big.Bytes reference.

(** [SignTx] signs the transaction using the passed in private key. The
    three assignments to the copy are made one after the other, so a panic
    on a short signature leaves the earlier ones in the copy. *)
Definition SignTx (tx : loc) (privateKey : PrivateKey) (h : heap)
  : heap * outcome loc :=
  match Copy tx h with
  | None => (h, Panic)
  | Some (tx, h) =>
      match h !! tx with
      | None => (h, Panic)
      | Some t =>
          match Sign privateKey (Hash t) with
          | Err e => (h, Err e)
          | Panic => (h, Panic)
          | Ok sig =>
              match slice sig 0 32 with
              | None => (h, Panic)
              | Some r =>
                  let h := alter (setR (Some (big.SetBytes r))) tx h in
                  match slice sig 32 64 with
                  | None => (h, Panic)
                  | Some s =>
                      let h := alter (setS (Some (big.SetBytes s))) tx h in
                      match sig !! 64%nat with
                      | None => (h, Panic)
                      | Some parity =>
                          let v := big.SetBytes (CalculateV parity) in
                          (alter (setV (Some v)) tx h, Ok tx)
                      end
                  end
              end
          end
      end
  end.

(** ** The contracts of the collaborators *)

(** The digest primitive returns 32 bytes. *)
Definition digest32 : Prop :=
  ∀ data, length (Keccak256 data) = 32%nat.

(** A signature of the primitive: 65 bytes, R then S then the parity, with R
    and S not zero and the parity 0 or 1. *)
Definition wellFormedSig (sig : list byte) : Prop :=
  length sig = 65%nat
  ∧ big.SetBytes (take 32 sig) ≠ 0
  ∧ big.SetBytes (take 32 (drop 32 sig)) ≠ 0
  ∧ ∃ p, sig !! 64%nat = Some p ∧ byte_val p <= 1.

(** A valid private key: its public key is an uncompressed key of 65 bytes,
    the primitive signs every digest with it, and recovers its public key
    from the digest and that signature. *)
Definition validKey (k : PrivateKey) : Prop :=
  length (publicKeyOf k) = 65%nat
  ∧ ∀ digest, ∃ sig,
      ec_sign k digest = Some sig
      ∧ wellFormedSig sig
      ∧ ec_recover digest sig = Some (publicKeyOf k).

(** An R or S that the reassembly of the signature must refuse: absent, of
    zero length when serialized, made of exactly 32 zero bytes, or longer
    than 32 bytes. *)
Definition badScalar (x : option Z) : Prop :=
  x = None
  ∨ ∃ r, x = Some r
         ∧ (big.Bytes r = []
            ∨ r = big.SetBytes (replicate 32 Byte.x00)
            ∨ (32 < length (big.Bytes r))%nat).

(** Two transactions with the same unsigned fields. *)
Definition sameUnsigned (t1 t2 : Transaction) : Prop :=
  txNonce t1 = txNonce t2
  ∧ txGasPrice t1 = txGasPrice t2
  ∧ txGas t1 = txGas t2
  ∧ txTo t1 = txTo t2
  ∧ txValue t1 = txValue t2
  ∧ txInput t1 = txInput t2.

(** ** Facts about bytes and big-endian integers *)

Lemma byte_val_range (b : byte) : 0 <= byte_val b < 256.
Proof.
  unfold byte_val. pose proof (Byte.to_N_bounded b). lia.
Qed.

Lemma byte_val_of_Z (z : Z) : byte_val (byte_of_Z z) = z mod 256.
Proof.
  unfold byte_of_Z, byte_val.
  pose proof (Z.mod_pos_bound z 256 eq_refl) as Hr.
  destruct (Byte.of_N (Z.to_N (z mod 256))) as [b|] eqn:E.
  - simpl. apply Byte.to_of_N in E. rewrite E. lia.
  - apply Byte.of_N_None_iff in E. lia.
Qed.

Lemma byte_of_Z_val (b : byte) : byte_of_Z (byte_val b) = b.
Proof.
  unfold byte_of_Z, byte_val.
  pose proof (Byte.to_N_bounded b) as Hb.
  rewrite Z.mod_small by lia.
  rewrite N2Z.id, Byte.of_to_N. reflexivity.
Qed.

Lemma byte_val_inj (a b : byte) : byte_val a = byte_val b → a = b.
Proof.
  intros H. rewrite <- (byte_of_Z_val a), <- (byte_of_Z_val b). now rewrite H.
Qed.

Lemma byte_val_zero (b : byte) : byte_val b = 0 ↔ b = Byte.x00.
Proof.
  split.
  - intros H. apply byte_val_inj. exact H.
  - intros ->. reflexivity.
Qed.

Lemma byte_eqb_x00 (b : byte) :
  Byte.eqb b Byte.x00 = true ↔ byte_val b = 0.
Proof.
  rewrite byte_val_zero. split.
  - apply Byte.byte_dec_bl.
  - apply Byte.byte_dec_lb.
Qed.

Lemma fold_shift (l : list byte) (a : Z) :
  fold_left (fun acc b => acc * 256 + byte_val b) l a
  = a * 256 ^ Z.of_nat (length l) + big.SetBytes l.
Proof.
  unfold big.SetBytes. revert a.
  induction l as [|b l IH]; intros a; simpl fold_left.
  - simpl. lia.
  - rewrite (IH (a * 256 + byte_val b)), (IH (0 * 256 + byte_val b)).
    rewrite length_cons, Nat2Z.inj_succ, Z.pow_succ_r by lia. ring.
Qed.

Lemma SetBytes_cons (b : byte) (l : list byte) :
  big.SetBytes (b :: l) = byte_val b * 256 ^ Z.of_nat (length l) + big.SetBytes l.
Proof.
  unfold big.SetBytes at 1. simpl fold_left. apply fold_shift.
Qed.

Lemma SetBytes_app (l1 l2 : list byte) :
  big.SetBytes (l1 ++ l2)
  = big.SetBytes l1 * 256 ^ Z.of_nat (length l2) + big.SetBytes l2.
Proof.
  unfold big.SetBytes at 1. rewrite fold_left_app.
  fold (big.SetBytes l1). apply fold_shift.
Qed.

Lemma SetBytes_range (l : list byte) :
  0 <= big.SetBytes l < 256 ^ Z.of_nat (length l).
Proof.
  induction l as [|b l IH].
  - cbn. lia.
  - rewrite SetBytes_cons, length_cons, Nat2Z.inj_succ, Z.pow_succ_r by lia.
    pose proof (byte_val_range b). nia.
Qed.

Lemma SetBytes_replicate_zero (n : nat) (l : list byte) :
  big.SetBytes (replicate n Byte.x00 ++ l) = big.SetBytes l.
Proof.
  induction n as [|n IH]; simpl; [reflexivity|].
  rewrite SetBytes_cons, IH. change (byte_val Byte.x00) with 0. lia.
Qed.

Lemma be_digits_value (fuel : nat) :
  ∀ (n : Z) (acc : list byte),
    0 <= n < 2 ^ Z.of_nat fuel →
    big.SetBytes (big.be_digits fuel n acc)
    = n * 256 ^ Z.of_nat (length acc) + big.SetBytes acc.
Proof.
  induction fuel as [|fuel IH]; intros n acc Hn.
  - simpl in *. assert (n = 0) as -> by lia. lia.
  - rewrite Nat2Z.inj_succ, Z.pow_succ_r in Hn by lia.
    simpl big.be_digits. destruct (Z.leb_spec n 0) as [Hle|Hgt].
    + assert (n = 0) as -> by lia. lia.
    + rewrite IH.
      * rewrite SetBytes_cons, byte_val_of_Z, length_cons, Nat2Z.inj_succ,
          Z.pow_succ_r by lia.
        pose proof (Z.div_mod n 256 ltac:(lia)) as Hdm. nia.
      * split; [apply Z.div_pos; lia|].
        apply Z.div_lt_upper_bound; lia.
Qed.

Lemma be_digits_canonical (fuel : nat) :
  ∀ (n : Z) (acc : list byte),
    0 < n < 2 ^ Z.of_nat fuel →
    ∃ b rest, big.be_digits fuel n acc = b :: rest ∧ byte_val b ≠ 0.
Proof.
  induction fuel as [|fuel IH]; intros n acc Hn.
  - simpl in Hn. lia.
  - rewrite Nat2Z.inj_succ, Z.pow_succ_r in Hn by lia.
    simpl big.be_digits. destruct (Z.leb_spec n 0) as [Hle|Hgt]; [lia|].
    destruct (Z.eq_dec (n / 256) 0) as [Hz|Hnz].
    + rewrite Hz. exists (byte_of_Z n), acc. split.
      * destruct fuel; reflexivity.
      * rewrite byte_val_of_Z.
        apply Z.div_small_iff in Hz; [|lia].
        rewrite Z.mod_small by lia. lia.
    + apply IH. pose proof (Z.div_pos n 256 ltac:(lia) ltac:(lia)).
      split; [lia|]. apply Z.div_lt_upper_bound; lia.
Qed.

Lemma Bytes_fuel (x : Z) :
  0 <= Z.abs x < 2 ^ Z.of_nat (S (Z.to_nat (Z.log2 (Z.abs x)))).
Proof.
  split; [lia|].
  rewrite Nat2Z.inj_succ, Z2Nat.id by apply Z.log2_nonneg.
  destruct (Z.eq_dec (Z.abs x) 0) as [->|Hnz].
  - reflexivity.
  - apply Z.log2_spec. lia.
Qed.

Lemma SetBytes_Bytes (x : Z) : big.SetBytes (big.Bytes x) = Z.abs x.
Proof.
  unfold big.Bytes. rewrite be_digits_value by apply Bytes_fuel.
  cbn. lia.
Qed.

Lemma Bytes_canonical (x : Z) : canonical (big.Bytes x).
Proof.
  destruct (Z.eq_dec x 0) as [->|Hnz]; [exact I|].
  unfold big.Bytes.
  destruct (be_digits_canonical (S (Z.to_nat (Z.log2 (Z.abs x))))
              (Z.abs x) []) as (b & rest & -> & Hb).
  - pose proof (Bytes_fuel x). lia.
  - exact Hb.
Qed.

Lemma canonical_zero (l : list byte) :
  canonical l → big.SetBytes l = 0 → l = [].
Proof.
  destruct l as [|b l]; [reflexivity|].
  simpl. intros Hb H. rewrite SetBytes_cons in H.
  pose proof (byte_val_range b). pose proof (SetBytes_range l).
  assert (0 < 256 ^ Z.of_nat (length l)) by (apply Z.pow_pos_nonneg; lia).
  nia.
Qed.

(** Two canonical slices of the same value are the same slice. *)
Lemma canonical_inj (l1 : list byte) :
  ∀ l2, canonical l1 → canonical l2 → big.SetBytes l1 = big.SetBytes l2 → l1 = l2.
Proof.
  induction l1 as [|b1 l1 IH] using rev_ind; intros l2 H1 H2 E.
  - symmetry. apply canonical_zero; [exact H2|]. rewrite <- E. reflexivity.
  - destruct l2 as [|b2 l2 _] using rev_ind.
    + apply canonical_zero; [exact H1|]. rewrite E. reflexivity.
    + rewrite !SetBytes_app in E. cbn [length] in E.
      change (256 ^ Z.of_nat 1) with 256 in E.
      assert (big.SetBytes [b1] = byte_val b1) as Eb1
        by (rewrite SetBytes_cons; cbn; lia).
      assert (big.SetBytes [b2] = byte_val b2) as Eb2
        by (rewrite SetBytes_cons; cbn; lia).
      rewrite Eb1, Eb2 in E.
      pose proof (byte_val_range b1). pose proof (byte_val_range b2).
      assert (byte_val b1 = byte_val b2 ∧ big.SetBytes l1 = big.SetBytes l2)
        as [Eb El] by lia.
      apply byte_val_inj in Eb. subst b2. f_equal.
      destruct l1 as [|a1 l1']; destruct l2 as [|a2 l2'].
      * reflexivity.
      * symmetry. apply canonical_zero; [exact H2|]. rewrite <- El. reflexivity.
      * apply canonical_zero; [exact H1|]. rewrite El. reflexivity.
      * apply IH; [exact H1|exact H2|exact El].
Qed.

Lemma trimLeftZeros_canonical (l : list byte) : canonical (trimLeftZeros l).
Proof.
  induction l as [|b l IH]; [exact I|].
  simpl. destruct (Byte.eqb b Byte.x00) eqn:E; [exact IH|].
  simpl. intros H. apply byte_eqb_x00 in H. congruence.
Qed.

Lemma SetBytes_trimLeftZeros (l : list byte) :
  big.SetBytes (trimLeftZeros l) = big.SetBytes l.
Proof.
  induction l as [|b l IH]; [reflexivity|].
  simpl. destruct (Byte.eqb b Byte.x00) eqn:E; [|reflexivity].
  apply byte_eqb_x00 in E. rewrite SetBytes_cons, E, IH. lia.
Qed.

(** Reading a slice as an integer and writing the integer back drops the
    leading zero bytes and nothing else. *)
Lemma Bytes_SetBytes (l : list byte) :
  big.Bytes (big.SetBytes l) = trimLeftZeros l.
Proof.
  apply canonical_inj.
  - apply Bytes_canonical.
  - apply trimLeftZeros_canonical.
  - rewrite SetBytes_Bytes, SetBytes_trimLeftZeros.
    pose proof (SetBytes_range l). lia.
Qed.

Lemma length_trimLeftZeros (l : list byte) :
  (length (trimLeftZeros l) ≤ length l)%nat.
Proof.
  induction l as [|b l IH]; [reflexivity|].
  simpl. destruct (Byte.eqb b Byte.x00); simpl; lia.
Qed.

(** Padding the trimmed slice back to the original length restores it. *)
Lemma leftPad_trimLeftZeros (l : list byte) :
  leftPad (length l) (trimLeftZeros l) = l.
Proof.
  unfold leftPad. induction l as [|b l IH]; [reflexivity|].
  simpl trimLeftZeros. destruct (Byte.eqb b Byte.x00) eqn:E.
  - apply byte_eqb_x00, byte_val_zero in E. subst b.
    pose proof (length_trimLeftZeros l).
    replace (length (Byte.x00 :: l) - length (trimLeftZeros l))%nat
      with (S (length l - length (trimLeftZeros l))) by (simpl; lia).
    simpl. f_equal. exact IH.
  - replace (length (b :: l) - length (b :: l))%nat with 0%nat by lia.
    reflexivity.
Qed.

Lemma trimLeftZeros_nil (l : list byte) :
  trimLeftZeros l = [] ↔ big.SetBytes l = 0.
Proof.
  split.
  - intros H. rewrite <- SetBytes_trimLeftZeros, H. reflexivity.
  - intros H. apply canonical_zero; [apply trimLeftZeros_canonical|].
    now rewrite SetBytes_trimLeftZeros.
Qed.

Lemma wrap_int64_cong (z : Z) : ∃ k, big.wrap_int64 z = z + k * 256.
Proof.
  unfold big.wrap_int64.
  exists (- (2 ^ 56 * ((z + 2 ^ 63) / 2 ^ 64))).
  pose proof (Z.div_mod (z + 2 ^ 63) (2 ^ 64) ltac:(lia)). lia.
Qed.

(** [Int64] agrees with its argument on the low eight bits, whatever the
    size of the argument. *)
Lemma Int64_cong (x : Z) : ∃ k, big.Int64 x = x + k * 256.
Proof.
  unfold big.Int64. rewrite Z.land_ones by lia.
  destruct (wrap_int64_cong (Z.abs x mod 2 ^ 64)) as [k1 E1].
  pose proof (Z.div_mod (Z.abs x) (2 ^ 64) ltac:(lia)) as Hdm.
  destruct (Z.ltb_spec x 0) as [Hneg|Hpos].
  - destruct (wrap_int64_cong (- big.wrap_int64 (Z.abs x mod 2 ^ 64)))
      as [k2 E2].
    exists (k2 - k1 + 2 ^ 56 * (Z.abs x / 2 ^ 64)). lia.
  - exists (k1 - 2 ^ 56 * (Z.abs x / 2 ^ 64)). lia.
Qed.

Lemma byte_of_Z_Int64 (x : Z) : byte_of_Z (big.Int64 x) = byte_of_Z x.
Proof.
  apply byte_val_inj. rewrite !byte_val_of_Z.
  destruct (Int64_cong x) as [k ->]. apply Z_mod_plus_full.
Qed.

(** ** Facts about slices *)

Lemma slice_Some (s : list byte) (lo hi : nat) :
  (lo ≤ hi)%nat → (hi ≤ length s)%nat →
  slice s lo hi = Some (take (hi - lo) (drop lo s)).
Proof.
  intros H1 H2. unfold slice. rewrite decide_True by lia. reflexivity.
Qed.

Lemma slice_from_Some (s : list byte) (lo : nat) :
  (lo ≤ length s)%nat → slice_from s lo = Some (drop lo s).
Proof.
  intros H. unfold slice_from. rewrite slice_Some by lia.
  rewrite take_ge; [reflexivity|]. rewrite length_drop. lia.
Qed.

Lemma slice_from_inv (s out : list byte) (lo : nat) :
  slice_from s lo = Some out → (lo ≤ length s)%nat ∧ out = drop lo s.
Proof.
  unfold slice_from, slice. intros H. case_decide as Hd; [|discriminate].
  split; [lia|]. rewrite take_ge in H by (rewrite length_drop; lia).
  congruence.
Qed.

Lemma length_leftPad (n : nat) (buf : list byte) :
  (length buf ≤ n)%nat → length (leftPad n buf) = n.
Proof.
  intros H. unfold leftPad. rewrite length_app, length_replicate. lia.
Qed.

Lemma SetBytes_leftPad (n : nat) (buf : list byte) :
  big.SetBytes (leftPad n buf) = big.SetBytes buf.
Proof. apply SetBytes_replicate_zero. Qed.

Lemma leftPad_full (n : nat) (buf : list byte) :
  (n ≤ length buf)%nat → leftPad n buf = buf.
Proof.
  intros H. unfold leftPad.
  replace (n - length buf)%nat with 0%nat by lia. reflexivity.
Qed.

Lemma length_BytesToAddress (b : list byte) :
  length (BytesToAddress b) = AddressLength.
Proof.
  unfold BytesToAddress. apply length_leftPad.
  rewrite length_drop. lia.
Qed.

Lemma BytesToAddress_exact (b : list byte) :
  length b = AddressLength → BytesToAddress b = b.
Proof.
  intros H. unfold BytesToAddress. rewrite H, Nat.sub_diag, drop_0.
  apply leftPad_full. lia.
Qed.

(** ** Facts about the signer *)

(** What [Sender] computes from [tx.V]: the low eight bits of the magnitude
    of V (0 for a nil V) less 27. *)
Lemma senderParity_eq (v : option Z) :
  senderParity v = byte_of_Z (Z.abs (default 0 v) - 27).
Proof.
  unfold senderParity, big.Sub, big27, big.NewInt.
  rewrite byte_of_Z_Int64.
  destruct v as [x|]; simpl; [rewrite SetBytes_Bytes|]; reflexivity.
Qed.

Lemma encodeSignature_Ok (r s : Z) (V : byte) :
  byte_val V <= 1 →
  scalarOk (big.Bytes r) = true →
  scalarOk (big.Bytes s) = true →
  encodeSignature (Some r) (Some s) V
  = Ok (leftPad 32 (big.Bytes r) ++ leftPad 32 (big.Bytes s) ++ [V]).
Proof.
  intros HV Hr Hs. unfold encodeSignature.
  apply Z.leb_le in HV. rewrite HV, Hr, Hs. reflexivity.
Qed.

Lemma encodeSignature_bad_parity (R S : option Z) (V : byte) :
  1 < byte_val V → encodeSignature R S V = Err InvalidSignature.
Proof.
  intros HV. unfold encodeSignature.
  destruct R, S; try reflexivity.
  apply Z.leb_gt in HV. rewrite HV. reflexivity.
Qed.

Lemma encodeSignature_bad_R (r : Z) (S : option Z) (V : byte) :
  scalarOk (big.Bytes r) = false →
  encodeSignature (Some r) S V = Err InvalidSignature.
Proof.
  intros H. unfold encodeSignature. destruct S; [|reflexivity].
  rewrite H, andb_false_r. reflexivity.
Qed.

Lemma encodeSignature_bad_S (R : option Z) (s : Z) (V : byte) :
  scalarOk (big.Bytes s) = false →
  encodeSignature R (Some s) V = Err InvalidSignature.
Proof.
  intros H. unfold encodeSignature. destruct R; [|reflexivity].
  rewrite H, andb_false_r. reflexivity.
Qed.

Lemma scalarOk_spec (buf : list byte) :
  scalarOk buf = true ↔ (0 < length buf ≤ 32)%nat.
Proof.
  unfold scalarOk. rewrite andb_true_iff, Nat.ltb_lt, Nat.leb_le. reflexivity.
Qed.

Lemma badScalar_Some (r : Z) :
  badScalar (Some r) ↔ scalarOk (big.Bytes r) = false.
Proof.
  rewrite <- not_true_iff_false, scalarOk_spec. split.
  - intros [H|(r' & [= <-] & [H|[H|H]])]; [discriminate| | |].
    + rewrite H. simpl. lia.
    + rewrite H, Bytes_SetBytes. simpl. lia.
    + lia.
  - intros H. right. exists r. split; [reflexivity|].
    destruct (big.Bytes r) as [|b l] eqn:E; [left; reflexivity|].
    right. right. simpl in *. lia.
Qed.

Lemma Sender_encode_failed (t : Transaction) :
  encodeSignature (txR t) (txS t) (senderParity (txV t))
  = Err InvalidSignature →
  Sender t = ([], Err InvalidSignature).
Proof. intros H. unfold Sender. rewrite H. reflexivity. Qed.

Lemma Hash_fields (t1 t2 : Transaction) :
  txFields t1 = txFields t2 → Hash t1 = Hash t2.
Proof. intros H. unfold Hash, calcTxHash. rewrite H. reflexivity. Qed.

(** The outcome of [SignTx] when the primitive returns a signature of 65
    bytes: a copy at a new location with R, S and V set from it. *)
Lemma SignTx_run (tx : loc) (k : PrivateKey) (h : heap)
    (t : Transaction) (sig : list byte) (p : byte) :
  h !! tx = Some t →
  ec_sign k (Hash t) = Some sig →
  length sig = 65%nat →
  sig !! 64%nat = Some p →
  let l := fresh (dom h) in
  let t' :=
    setV (Some (big.SetBytes (CalculateV p)))
      (setS (Some (big.SetBytes (take 32 (drop 32 sig))))
         (setR (Some (big.SetBytes (take 32 sig))) t)) in
  SignTx tx k h = (<[l := t']> h, Ok l).
Proof.
  intros Ht Hs Hlen Hp l t'. unfold SignTx, Copy, Sign.
  rewrite Ht. fold l. rewrite lookup_insert_eq, Hs.
  rewrite !slice_Some by lia. rewrite Hp. rewrite drop_0.
  change (32 - 0)%nat with 32%nat. change (64 - 32)%nat with 32%nat.
  f_equal. rewrite !alter_insert_eq. reflexivity.
Qed.

Lemma CalculateV_value (p : byte) :
  big.SetBytes (CalculateV p) = byte_val p + 27.
Proof.
  unfold CalculateV, big.Add, big27, big.NewInt.
  rewrite SetBytes_Bytes. pose proof (byte_val_range p). lia.
Qed.

Lemma senderParity_CalculateV (p : byte) :
  senderParity (Some (big.SetBytes (CalculateV p))) = p.
Proof.
  rewrite senderParity_eq, CalculateV_value. simpl default.
  pose proof (byte_val_range p).
  replace (Z.abs (byte_val p + 27) - 27) with (byte_val p) by lia.
  apply byte_of_Z_val.
Qed.

Lemma signature_parts (sig : list byte) (p : byte) :
  length sig = 65%nat → sig !! 64%nat = Some p →
  take 32 sig ++ take 32 (drop 32 sig) ++ [p] = sig.
Proof.
  intros Hlen Hp.
  rewrite <- (take_drop 32 sig) at 3. f_equal.
  rewrite <- (take_drop 32 (drop 32 sig)) at 2. f_equal.
  rewrite drop_drop. change (32 + 32)%nat with 64%nat.
  rewrite (drop_S _ _ _ Hp), drop_ge by lia. reflexivity.
Qed.

Lemma scalarOk_of_32 (buf : list byte) :
  length buf = 32%nat → big.SetBytes buf ≠ 0 →
  scalarOk (big.Bytes (big.SetBytes buf)) = true
  ∧ leftPad 32 (big.Bytes (big.SetBytes buf)) = buf.
Proof.
  intros Hlen Hnz. rewrite Bytes_SetBytes. split.
  - apply scalarOk_spec. pose proof (length_trimLeftZeros buf).
    destruct (trimLeftZeros buf) eqn:E; [|simpl in *; lia].
    apply trimLeftZeros_nil in E. contradiction.
  - rewrite <- Hlen. apply leftPad_trimLeftZeros.
Qed.

Lemma SignTx_Ok_inv (tx tx' : loc) (k : PrivateKey) (h h' : heap) :
  SignTx tx k h = (h', Ok tx') →
  ∃ t sig r s p,
    h !! tx = Some t
    ∧ ec_sign k (Hash t) = Some sig
    ∧ slice sig 0 32 = Some r
    ∧ slice sig 32 64 = Some s
    ∧ sig !! 64%nat = Some p
    ∧ tx' = fresh (dom h)
    ∧ h' = <[tx' := setV (Some (big.SetBytes (CalculateV p)))
                      (setS (Some (big.SetBytes s))
                         (setR (Some (big.SetBytes r)) t))]> h.
Proof.
  unfold SignTx, Copy, Sign. destruct (h !! tx) as [t|] eqn:Ht; [|discriminate].
  rewrite lookup_insert_eq.
  destruct (ec_sign k (Hash t)) as [sig|] eqn:Hs; [|discriminate].
  destruct (slice sig 0 32) as [r|] eqn:Hr; [|discriminate].
  destruct (slice sig 32 64) as [s|] eqn:Hss; [|discriminate].
  destruct (sig !! 64%nat) as [p|] eqn:Hp; [|discriminate].
  intros [= <- <-]. exists t, sig, r, s, p.
  rewrite !alter_insert_eq.
  repeat (split; [first [reflexivity | assumption]|]). reflexivity.
Qed.

(** Every heap that [SignTx] leaves behind holds the transactions of the
    heap it started from, unchanged. *)
Lemma SignTx_preserves (tx : loc) (k : PrivateKey) (h : heap)
    (l : loc) (t : Transaction) :
  h !! l = Some t → (SignTx tx k h).1 !! l = Some t.
Proof.
  intros Hl. unfold SignTx, Copy.
  destruct (h !! tx) as [t0|] eqn:Ht; [|exact Hl].
  assert (fresh (dom h) ≠ l) as Hne.
  { intros E. apply (is_fresh (dom h)). rewrite E.
    apply elem_of_dom. eauto. }
  rewrite lookup_insert_eq.
  destruct (Sign k (Hash t0)) as [sig| |]; simpl;
    [|rewrite lookup_insert_ne by exact Hne; exact Hl ..].
  destruct (slice sig 0 32); simpl;
    [|rewrite lookup_insert_ne by exact Hne; exact Hl].
  destruct (slice sig 32 64); simpl;
    [|rewrite lookup_alter_ne, lookup_insert_ne by exact Hne; exact Hl].
  destruct (sig !! 64%nat); simpl;
    rewrite !lookup_alter_ne, lookup_insert_ne by exact Hne; exact Hl.
Qed.

(** ** The specification, statement by statement *)

(** C1. Round trip: for a valid private key [k] and a transaction [t] held
    at [tx], [SignTx] succeeds and returns a transaction on which [Sender]
    succeeds with exactly the address of the public key of [k]. The contracts
    of the digest and of the elliptic-curve primitive are the hypotheses. *)
Theorem SignTx_Sender_roundtrip (k : PrivateKey) (tx : loc) (h : heap)
    (t : Transaction) :
  digest32 → validKey k → h !! tx = Some t →
  ∃ h' tx' t',
    SignTx tx k h = (h', Ok tx')
    ∧ h' !! tx' = Some t'
    ∧ (Sender t').2 = Ok (AddressOf (publicKeyOf k)).
Proof.
  intros Hd [Hpub Hk] Ht.
  destruct (Hk (Hash t)) as (sig & Hs & (Hlen & HR & HS & p & Hp & Hp1) & Hrec).
  eexists _, _, _. split; [|split].
  - apply (SignTx_run tx k h t sig p); assumption.
  - apply lookup_insert_eq.
  - unfold Sender. cbn [txR txS txV setV setS setR].
    rewrite senderParity_CalculateV.
    destruct (scalarOk_of_32 (take 32 sig)) as [Hok1 Hpad1];
      [rewrite length_take; lia|exact HR|].
    destruct (scalarOk_of_32 (take 32 (drop 32 sig))) as [Hok2 Hpad2];
      [rewrite length_take, length_drop; lia|exact HS|].
    rewrite encodeSignature_Ok by assumption.
    rewrite Hpad1, Hpad2, (signature_parts sig p Hlen Hp).
    cbn [snd]. unfold Ecrecover.
    rewrite (Hash_fields _ t) by reflexivity. rewrite Hrec.
    rewrite slice_from_Some by lia.
    rewrite slice_from_Some by (rewrite Hd; lia).
    reflexivity.
Qed.

(** C2. The V handling of [Sender] keeps only the low eight bits of V - 27:
    V = 283 gives the parity 0, as V = 27 does, and the two transactions are
    treated alike. With R = S = 1 the recovery primitive is called on the
    signature of parity 0 and the outcome is not [InvalidSignature]. *)
Theorem Sender_V_283_accepted (t : Transaction) :
  senderParity (Some 283) = Byte.x00
  ∧ Sender (setV (Some 283) t) = Sender (setV (Some 27) t)
  ∧ let t1 := setV (Some 283) (setS (Some 1) (setR (Some 1) t)) in
    (Sender t1).1
    = [EcrecoverCall (Hash t1)
         (replicate 31 Byte.x00 ++ [Byte.x01]
          ++ replicate 31 Byte.x00 ++ [Byte.x01] ++ [Byte.x00])]
    ∧ isInvalidSignature (Sender t1).2 = false.
Proof.
  split; [reflexivity|]. split; [reflexivity|].
  cbn zeta. unfold Sender. cbn [txR txS txV setV setS setR].
  change (encodeSignature (Some 1) (Some 1) (senderParity (Some 283)))
    with (Ok (replicate 31 Byte.x00 ++ [Byte.x01]
              ++ replicate 31 Byte.x00 ++ [Byte.x01] ++ [Byte.x00])).
  cbn [fst snd]. split; [reflexivity|].
  unfold Ecrecover. destruct (ec_recover _ _) as [pub|]; [|reflexivity].
  destruct (slice_from pub 1) as [key|]; [|reflexivity].
  destruct (slice_from (Keccak256 key) 12); reflexivity.
Qed.

(** C3. [Sender] on a transaction whose V is nil or zero returns
    [InvalidSignature], and the recovery primitive is not called. *)
Theorem Sender_rejects_unsigned (t : Transaction) :
  txV t = None ∨ txV t = Some 0 →
  Sender t = ([], Err InvalidSignature).
Proof.
  intros H. apply Sender_encode_failed.
  apply encodeSignature_bad_parity.
  destruct H as [-> | ->]; reflexivity.
Qed.

(** C4. [Hash] gives the same digest on two transactions that agree on
    nonce, gas price, gas limit, recipient, value and payload, whatever
    their V, R and S. *)
Theorem Hash_ignores_signature (t1 t2 : Transaction) :
  sameUnsigned t1 t2 → Hash t1 = Hash t2.
Proof.
  intros (Hn & Hp & Hg & Ht & Hv & Hi). apply Hash_fields.
  unfold txFields. rewrite Hn, Hp, Hg, Ht, Hv, Hi. reflexivity.
Qed.

(** C5. [Hash] is [calcTxHash] at chain identifier 0, and its input is the
    encoding of the six unsigned fields alone: no chain identifier is part
    of it. *)
Theorem Hash_has_no_chain_id (t : Transaction) :
  Hash t = calcTxHash t 0
  ∧ Hash t
    = Keccak256
        (Encode
           [ RlpUint (txNonce t);
             RlpBigInt (txGasPrice t);
             RlpUint (txGas t);
             match txTo t with
             | None => RlpNull
             | Some a => RlpBytes a
             end;
             RlpBigInt (txValue t);
             RlpBytes (txInput t) ]).
Proof. split; reflexivity. Qed.

(** C6. [SignTx] leaves every transaction of the heap as it was, the one it
    was given included, whether it succeeds or not; on success the result is
    a new location that holds the unsigned fields of the input with V, R
    and S set. *)
Theorem SignTx_does_not_mutate (tx : loc) (k : PrivateKey) (h h' : heap)
    (r : outcome loc) :
  SignTx tx k h = (h', r) →
  (∀ l t, h !! l = Some t → h' !! l = Some t)
  ∧ (∀ tx', r = Ok tx' →
       h !! tx' = None
       ∧ ∃ t t', h !! tx = Some t ∧ h' !! tx' = Some t'
                 ∧ sameUnsigned t t'
                 ∧ is_Some (txV t') ∧ is_Some (txR t') ∧ is_Some (txS t')).
Proof.
  intros E. split.
  - intros l t Hl. pose proof (SignTx_preserves tx k h l t Hl) as Hp.
    rewrite E in Hp. exact Hp.
  - intros tx' ->.
    apply SignTx_Ok_inv in E
      as (t & sig & rb & sb & p & Ht & _ & _ & _ & _ & -> & ->).
    split.
    + apply not_elem_of_dom, is_fresh.
    + eexists t, _. split; [exact Ht|]. split; [apply lookup_insert_eq|].
      cbn. unfold sameUnsigned. cbn. eauto 10.
Qed.

(** C7. [Sender] returns [InvalidSignature], without calling the recovery
    primitive, when R or S is absent, of zero length when serialized, made of
    exactly 32 zero bytes, or longer than 32 bytes. Otherwise, with a parity
    of 0 or 1, the signature handed to the recovery primitive holds R and S
    left-padded to 32 bytes each, followed by the parity. *)
Theorem Sender_checks_R_and_S (t : Transaction) :
  (badScalar (txR t) ∨ badScalar (txS t) →
   Sender t = ([], Err InvalidSignature))
  ∧ (∀ r s,
       txR t = Some r → txS t = Some s →
       ¬ badScalar (Some r) → ¬ badScalar (Some s) →
       byte_val (senderParity (txV t)) <= 1 →
       (Sender t).1
       = [EcrecoverCall (Hash t)
            (leftPad 32 (big.Bytes r) ++ leftPad 32 (big.Bytes s)
             ++ [senderParity (txV t)])]
       ∧ length (leftPad 32 (big.Bytes r)) = 32%nat
       ∧ length (leftPad 32 (big.Bytes s)) = 32%nat
       ∧ big.SetBytes (leftPad 32 (big.Bytes r)) = Z.abs r
       ∧ big.SetBytes (leftPad 32 (big.Bytes s)) = Z.abs s).
Proof.
  split.
  - intros H. apply Sender_encode_failed.
    destruct H as [H|H].
    + destruct (txR t) as [r|]; [|reflexivity].
      apply encodeSignature_bad_R, badScalar_Some, H.
    + destruct (txS t) as [s|]; [|destruct (txR t); reflexivity].
      apply encodeSignature_bad_S, badScalar_Some, H.
  - intros r s HR HS Hr Hs Hp.
    rewrite badScalar_Some, not_false_iff_true in Hr, Hs.
    unfold Sender. rewrite HR, HS, encodeSignature_Ok by assumption.
    apply scalarOk_spec in Hr, Hs.
    rewrite !length_leftPad, !SetBytes_leftPad, !SetBytes_Bytes by lia.
    auto.
Qed.

(** C8. For a parity of 0 or 1, [CalculateV] returns the single byte 27 or
    28: the big-endian bytes of 27 plus the parity. *)
Theorem CalculateV_legacy (p : byte) :
  byte_val p <= 1 →
  CalculateV p = [byte_of_Z (27 + byte_val p)]
  ∧ big.SetBytes (CalculateV p) = 27 + byte_val p.
Proof.
  intros Hp. pose proof (byte_val_range p).
  assert (p = Byte.x00 ∨ p = Byte.x01) as [-> | ->].
  { destruct (Z.eq_dec (byte_val p) 0) as [E|E].
    - left. apply byte_val_inj. exact E.
    - right. apply byte_val_inj. change (byte_val Byte.x01) with 1. lia. }
  - split; reflexivity.
  - split; reflexivity.
Qed.

(** C9. When [Sender] succeeds, the address is made of bytes 12 to 31 of the
    32-byte digest of the recovered public key without its first byte. *)
Theorem Sender_address_of_recovered_key (t : Transaction) (addr : Address) :
  digest32 →
  (Sender t).2 = Ok addr →
  ∃ sig pub prefix,
    encodeSignature (txR t) (txS t) (senderParity (txV t)) = Ok sig
    ∧ ec_recover (Hash t) sig = Some pub
    ∧ pub = prefix :: drop 1 pub
    ∧ addr = drop 12 (Keccak256 (drop 1 pub))
    ∧ length addr = 20%nat
    ∧ ∀ i, addr !! i = Keccak256 (drop 1 pub) !! (12 + i)%nat.
Proof.
  intros Hd. unfold Sender.
  destruct (encodeSignature _ _ _) as [sig| |] eqn:He; try discriminate.
  cbn [snd]. unfold Ecrecover.
  destruct (ec_recover (Hash t) sig) as [pub|] eqn:Hr; [|discriminate].
  destruct (slice_from pub 1) as [key|] eqn:Hk; [|discriminate].
  destruct (slice_from (Keccak256 key) 12) as [buf|] eqn:Hb; [|discriminate].
  intros [= <-].
  apply slice_from_inv in Hk as [Hlen ->].
  apply slice_from_inv in Hb as [_ ->].
  destruct pub as [|b pub]; [simpl in Hlen; lia|].
  assert (length (drop 12 (Keccak256 (drop 1 (b :: pub)))) = 20%nat) as H20
    by (rewrite length_drop, Hd; reflexivity).
  exists sig, (b :: pub), b.
  rewrite BytesToAddress_exact by exact H20.
  split; [reflexivity|]. split; [exact Hr|]. split; [reflexivity|].
  split; [reflexivity|]. split; [exact H20|].
  intros i. apply lookup_drop.
Qed.

(** C10. When [SignTx] succeeds, the V of the returned transaction is 27
    plus the parity byte, byte 64 of the signature of the primitive, and the
    V handling of [Sender] gives that parity back; for a parity of 0 or 1
    the V is 27 or 28. *)
Theorem SignTx_V_is_27_plus_parity (tx tx' : loc) (k : PrivateKey)
    (h h' : heap) :
  SignTx tx k h = (h', Ok tx') →
  ∃ t t' sig p,
    h !! tx = Some t
    ∧ ec_sign k (Hash t) = Some sig
    ∧ sig !! 64%nat = Some p
    ∧ h' !! tx' = Some t'
    ∧ txV t' = Some (27 + byte_val p)
    ∧ senderParity (txV t') = p
    ∧ (byte_val p <= 1 → txV t' = Some 27 ∨ txV t' = Some 28).
Proof.
  intros E.
  apply SignTx_Ok_inv in E
    as (t & sig & rb & sb & p & Ht & Hs & _ & _ & Hp & -> & ->).
  eexists t, _, sig, p. split; [exact Ht|]. split; [exact Hs|].
  split; [exact Hp|]. split; [apply lookup_insert_eq|].
  cbn [txV setV]. rewrite senderParity_CalculateV, CalculateV_value.
  split; [f_equal; lia|]. split; [reflexivity|].
  intros Hle. pose proof (byte_val_range p).
  destruct (Z.eq_dec (byte_val p) 0) as [E|E]; [left|right]; f_equal; lia.
Qed.
End Signer.

(** ** The statements on the small instance *)

Lemma demoDigest_32 : digest32 demoDigest.
Proof.
  intros data. unfold demoDigest. apply length_leftPad.
  rewrite length_drop. lia.
Qed.

Lemma demoKey_valid :
  validKey byte demoPublicKey demoSign demoRecover Byte.x07.
Proof.
  split; [reflexivity|]. intros digest. eexists. split; [reflexivity|].
  split; [|reflexivity].
  split; [reflexivity|]. split; [vm_compute; intros ?; discriminate|].
  split; [vm_compute; intros ?; discriminate|].
  exists Byte.x01. split; [reflexivity|]. vm_compute. intros ?. discriminate.
Qed.

Lemma SignTx_Sender_roundtrip_witness :
  demoHeap !! 1%positive = Some demoTx
  ∧ ∃ h' tx' t',
      SignTx byte demoEncode demoDigest demoSign 1%positive Byte.x07 demoHeap
      = (h', Ok tx')
      ∧ h' !! tx' = Some t'
      ∧ (Sender demoEncode demoDigest demoRecover t').2
        = Ok (AddressOf demoDigest (demoPublicKey Byte.x07)).
Proof.
  split; [reflexivity|].
  apply (SignTx_Sender_roundtrip byte demoPublicKey demoEncode demoDigest
           demoSign demoRecover Byte.x07 1%positive demoHeap demoTx).
  - exact demoDigest_32.
  - apply demoKey_valid.
  - reflexivity.
Defined.

Lemma Sender_rejects_unsigned_witness :
  (txV demoTx = None ∨ txV demoTx = Some 0)
  ∧ Sender demoEncode demoDigest demoRecover demoTx
    = ([], Err InvalidSignature).
Proof.
  split; [left; reflexivity|].
  apply (Sender_rejects_unsigned demoEncode demoDigest demoRecover demoTx).
  left. reflexivity.
Defined.

Lemma Hash_ignores_signature_witness :
  sameUnsigned demoTx demoSigned
  ∧ Hash demoEncode demoDigest demoTx = Hash demoEncode demoDigest demoSigned.
Proof.
  assert (sameUnsigned demoTx demoSigned) as H
    by (repeat split; reflexivity).
  split; [exact H|].
  apply (Hash_ignores_signature demoEncode demoDigest demoTx demoSigned H).
Defined.

Lemma SignTx_does_not_mutate_witness :
  let run :=
    SignTx byte demoEncode demoDigest demoSign 1%positive Byte.x07 demoHeap in
  run = (run.1, Ok 2%positive)
  ∧ run.1 !! 1%positive = Some demoTx
  ∧ demoHeap !! 2%positive = None
  ∧ run.1 !! 2%positive = Some demoSigned.
Proof.
  intros run.
  assert (run = (run.1, Ok 2%positive)) as E by (vm_compute; reflexivity).
  split; [exact E|].
  destruct (SignTx_does_not_mutate byte demoEncode demoDigest demoSign
              1%positive Byte.x07 demoHeap run.1 (Ok 2%positive) E)
    as [Hkeep Hnew].
  split; [apply (Hkeep 1%positive demoTx); reflexivity|].
  destruct (Hnew 2%positive eq_refl) as [Hfresh _].
  split; [exact Hfresh|]. vm_compute. reflexivity.
Defined.

Lemma Sender_checks_R_and_S_witness :
  badScalar (txR (setR (Some 0) demoSigned))
  ∧ Sender demoEncode demoDigest demoRecover (setR (Some 0) demoSigned)
    = ([], Err InvalidSignature)
  ∧ (Sender demoEncode demoDigest demoRecover demoSigned).1
    = [EcrecoverCall (Hash demoEncode demoDigest demoSigned)
         (replicate 30 Byte.x00 ++ [Byte.x01; Byte.x07]
          ++ replicate 31 Byte.x00 ++ [Byte.x02]
          ++ [Byte.x01])].
Proof.
  assert (badScalar (txR (setR (Some 0) demoSigned))) as Hbad
    by (right; exists 0; split; [reflexivity|left; reflexivity]).
  split; [exact Hbad|]. split.
  - apply (proj1 (Sender_checks_R_and_S demoEncode demoDigest demoRecover
                    (setR (Some 0) demoSigned))).
    left. exact Hbad.
  - apply (proj2 (Sender_checks_R_and_S demoEncode demoDigest demoRecover
                    demoSigned) 263 2).
    + reflexivity.
    + reflexivity.
    + rewrite badScalar_Some. vm_compute. intros ?. discriminate.
    + rewrite badScalar_Some. vm_compute. intros ?. discriminate.
    + vm_compute. intros ?. discriminate.
Defined.

Lemma CalculateV_legacy_witness :
  byte_val Byte.x01 <= 1
  ∧ CalculateV Byte.x01 = [Byte.x1c]
  ∧ big.SetBytes (CalculateV Byte.x01) = 28.
Proof.
  assert (byte_val Byte.x01 <= 1) as H by (vm_compute; intros ?; discriminate).
  split; [exact H|]. exact (CalculateV_legacy Byte.x01 H).
Defined.

Lemma Sender_address_of_recovered_key_witness :
  (Sender demoEncode demoDigest demoRecover demoSigned).2
  = Ok (replicate 20 Byte.x07)
  ∧ ∃ sig pub prefix,
      encodeSignature (txR demoSigned) (txS demoSigned)
        (senderParity (txV demoSigned)) = Ok sig
      ∧ demoRecover (Hash demoEncode demoDigest demoSigned) sig = Some pub
      ∧ pub = prefix :: drop 1 pub
      ∧ replicate 20 Byte.x07 = drop 12 (demoDigest (drop 1 pub))
      ∧ length (replicate 20 Byte.x07) = 20%nat
      ∧ ∀ i, replicate 20 Byte.x07 !! i
             = demoDigest (drop 1 pub) !! (12 + i)%nat.
Proof.
  assert ((Sender demoEncode demoDigest demoRecover demoSigned).2
          = Ok (replicate 20 Byte.x07)) as H by reflexivity.
  split; [exact H|].
  exact (Sender_address_of_recovered_key demoEncode demoDigest demoRecover
           demoSigned (replicate 20 Byte.x07) demoDigest_32 H).
Defined.

Lemma SignTx_V_is_27_plus_parity_witness :
  let run :=
    SignTx byte demoEncode demoDigest demoSign 1%positive Byte.x07 demoHeap in
  run = (run.1, Ok 2%positive)
  ∧ ∃ t t' sig p,
      demoHeap !! 1%positive = Some t
      ∧ demoSign Byte.x07 (Hash demoEncode demoDigest t) = Some sig
      ∧ sig !! 64%nat = Some p
      ∧ run.1 !! 2%positive = Some t'
      ∧ txV t' = Some (27 + byte_val p)
      ∧ senderParity (txV t') = p
      ∧ (byte_val p <= 1 → txV t' = Some 27 ∨ txV t' = Some 28).
Proof.
  intros run.
  assert (run = (run.1, Ok 2%positive)) as E by (vm_compute; reflexivity).
  split; [exact E|].
  exact (SignTx_V_is_27_plus_parity byte demoEncode demoDigest demoSign
           1%positive 2%positive Byte.x07 demoHeap run.1 E).
Defined.

(** ** Facts about Go strings *)

Lemma str_append_cons (x : ascii) (a b : string) :
  String x a +:+ b = String x (a +:+ b).
Proof. reflexivity. Qed.

Lemma str_append_nil_l (b : string) : EmptyString +:+ b = b.
Proof. reflexivity. Qed.

Lemma str_length_append (a b : string) :
  String.length (a +:+ b) = (String.length a + String.length b)%nat.
Proof.
  induction a as [|c a IH]; [reflexivity|].
  rewrite str_append_cons. simpl. now rewrite IH.
Qed.

Lemma str_append_assoc (a b c : string) :
  (a +:+ b) +:+ c = a +:+ (b +:+ c).
Proof.
  induction a as [|x a IH]; [reflexivity|].
  rewrite !str_append_cons. now rewrite IH.
Qed.

Lemma str_append_nil_r (a : string) : a +:+ EmptyString = a.
Proof.
  induction a as [|x a IH]; [reflexivity|].
  rewrite str_append_cons. now rewrite IH.
Qed.

Lemma count_append (c : ascii) (a b : string) :
  gostrings.count c (a +:+ b)
  = (gostrings.count c a + gostrings.count c b)%nat.
Proof.
  induction a as [|x a IH]; [reflexivity|].
  rewrite str_append_cons. simpl. rewrite IH. lia.
Qed.

Lemma Split_nonempty (s : string) (c : ascii) : gostrings.Split s c ≠ [].
Proof.
  induction s as [|x s IH]; simpl; [discriminate|].
  destruct (Ascii.eqb x c); [discriminate|].
  destruct (gostrings.Split s c); discriminate.
Qed.

(** [Split] returns one part more than there are separators. *)
Lemma Split_length (s : string) (c : ascii) :
  length (gostrings.Split s c) = S (gostrings.count c s).
Proof.
  induction s as [|x s IH]; simpl; [reflexivity|].
  destruct (Ascii.eqb x c); simpl; [now rewrite IH|].
  destruct (gostrings.Split s c) eqn:E; simpl in *; [discriminate|exact IH].
Qed.

(** No part holds the separator. *)
Lemma Split_parts (s : string) (c : ascii) :
  Forall (fun part => gostrings.count c part = 0%nat) (gostrings.Split s c).
Proof.
  induction s as [|x s IH]; simpl.
  - repeat constructor.
  - destruct (Ascii.eqb x c) eqn:Ex.
    + constructor; [reflexivity|exact IH].
    + destruct (gostrings.Split s c) as [|part parts].
      * repeat constructor. simpl. now rewrite Ex.
      * inversion IH as [|? ? Hp Hps]; subst. constructor; [|exact Hps].
        simpl. now rewrite Ex, Hp.
Qed.

Lemma concat_cons (sep x y : string) (rest : list string) :
  String.concat sep (x :: y :: rest)
  = x +:+ sep +:+ String.concat sep (y :: rest).
Proof. reflexivity. Qed.

(** Joining the parts with the separator gives the string back. *)
Lemma Join_Split (s : string) (c : ascii) :
  gostrings.Join (gostrings.Split s c) (String c EmptyString) = s.
Proof.
  unfold gostrings.Join. induction s as [|x s IH]; [reflexivity|].
  simpl gostrings.Split.
  pose proof (Split_nonempty s c) as Hn.
  destruct (gostrings.Split s c) as [|part parts] eqn:E; [contradiction|].
  destruct (Ascii.eqb_spec x c) as [->|Hne].
  - rewrite concat_cons, IH. reflexivity.
  - destruct parts as [|part' parts].
    + simpl in *. now rewrite IH.
    + rewrite concat_cons in *. rewrite str_append_cons. now rewrite IH.
Qed.

Lemma Split_no_sep (a : string) (c : ascii) :
  gostrings.count c a = 0%nat → gostrings.Split a c = [a].
Proof.
  induction a as [|x a IH]; simpl; [reflexivity|].
  destruct (Ascii.eqb x c); [discriminate|].
  intros H. now rewrite IH.
Qed.

Lemma Split_append (a b : string) (c : ascii) :
  gostrings.count c a = 0%nat →
  gostrings.Split (a +:+ String c b) c = a :: gostrings.Split b c.
Proof.
  induction a as [|x a IH].
  - intros _. rewrite str_append_nil_l. simpl. now rewrite Ascii.eqb_refl.
  - rewrite str_append_cons. simpl.
    destruct (Ascii.eqb x c); [discriminate|].
    intros H. now rewrite IH.
Qed.

(** A string splits into three parts exactly when it is three strings free
    of the separator with a separator after the first and the second. *)
Lemma Split_three (s a b d : string) (c : ascii) :
  gostrings.Split s c = [a; b; d]
  ↔ s = a +:+ String c (b +:+ String c d)
    ∧ gostrings.count c a = 0%nat
    ∧ gostrings.count c b = 0%nat
    ∧ gostrings.count c d = 0%nat.
Proof.
  split.
  - intros E. pose proof (Split_parts s c) as Hp. rewrite E in Hp.
    pose proof (Join_Split s c) as Hj. rewrite E in Hj.
    apply Forall_cons in Hp as [Ha Hp].
    apply Forall_cons in Hp as [Hb Hp].
    apply Forall_cons in Hp as [Hd _].
    split; [|auto]. rewrite <- Hj. reflexivity.
  - intros (-> & Ha & Hb & Hd).
    rewrite Split_append by exact Ha. rewrite Split_append by exact Hb.
    now rewrite Split_no_sep.
Qed.

(** ** The manifest command *)

Lemma parseValidator_inr (env : ManifestEnv) (balance : option Z) (stk : Z)
    (entry : string) (v : Validator) :
  parseValidator env balance stk entry = inr v
  ↔ ∃ e, entry = cliEntry e ∧ cliEntryOk e
         ∧ v = cliValidator env balance stk e.
Proof.
  unfold parseValidator. split.
  - destruct (gostrings.Split entry colon) as [|a [|b [|d [|? ?]]]] eqn:E;
      try discriminate.
    apply Split_three in E as (-> & Ha & Hb & Hd).
    destruct (Nat.eqb_spec (String.length a) nodeIDLength) as [La|];
      [|discriminate].
    destruct (Nat.eqb_spec (String.length b) ecdsaAddressLength) as [Lb|];
      [|discriminate].
    destruct (Nat.ltb_spec (String.length d) blsKeyLength) as [|Ld];
      [discriminate|].
    simpl. intros [= <-]. exists (a, b, d). simpl. auto 10.
  - intros ([[a b] d] & -> & (La & Lb & Ld & Ha & Hb & Hd) & ->).
    unfold cliEntry.
    rewrite (proj2 (Split_three _ a b d colon)) by auto.
    rewrite La, Lb, !Nat.eqb_refl. simpl negb. cbv iota.
    destruct (Nat.ltb_spec (String.length d) blsKeyLength); [lia|].
    reflexivity.
Qed.

Lemma parseValidators_inr (env : ManifestEnv) (balance : option Z) (stk : Z)
    (entries : list string) (vs : list Validator) :
  parseValidators env balance stk entries = inr vs
  ↔ ∃ es, entries = map cliEntry es ∧ Forall cliEntryOk es
          ∧ vs = map (cliValidator env balance stk) es.
Proof.
  revert vs. induction entries as [|entry rest IH]; intros vs; simpl.
  - split.
    + intros [= <-]. exists []. auto.
    + intros (es & E & _ & ->). destruct es; [reflexivity|discriminate].
  - split.
    + destruct (parseValidator env balance stk entry) as [|v] eqn:Ev;
        [discriminate|].
      destruct (parseValidators env balance stk rest) as [|vs'] eqn:Er;
        [discriminate|].
      intros [= <-].
      apply parseValidator_inr in Ev as (e & -> & He & ->).
      destruct (proj1 (IH vs') eq_refl) as (es & -> & Hes & ->).
      exists (e :: es). auto.
    + intros (es & E & Hes & ->). destruct es as [|e es]; [discriminate|].
      injection E as -> ->. apply Forall_cons in Hes as [He Hes].
      rewrite (proj2 (parseValidator_inr env balance stk _ _))
        by (exists e; eauto).
      rewrite (proj2 (IH _)) by (exists es; eauto).
      reflexivity.
Qed.

Lemma parseValidators_first_error (env : ManifestEnv) (balance : option Z)
    (stk : Z) (pre : list (string * string * string)) (bad : string)
    (post : list string) (err : ManifestError) :
  Forall cliEntryOk pre →
  parseValidator env balance stk bad = inl err →
  parseValidators env balance stk (map cliEntry pre ++ bad :: post)
  = inl err.
Proof.
  intros Hpre Hbad. induction pre as [|e pre IH]; simpl.
  - now rewrite Hbad.
  - apply Forall_cons in Hpre as [He Hpre].
    rewrite (proj2 (parseValidator_inr env balance stk _ _))
      by (exists e; eauto).
    now rewrite IH.
Qed.

Lemma getValidatorAccounts_cli_run (env : ManifestEnv)
    (p : manifestInitParams) (stk : Z) :
  validators p ≠ [] → effectiveStake p = Some stk →
  getValidatorAccounts env p
  = match parseValidators env (premineBalance p) stk (validators p) with
    | inl err => RErr err
    | inr vs => ROk vs
    end.
Proof.
  intros Hne Hs. unfold getValidatorAccounts. rewrite Hs.
  destruct (validators p); [contradiction|reflexivity].
Qed.

(** X1. With validators given on the command line, [getValidatorAccounts]
    succeeds exactly when every entry is a node id of 53 bytes, an address of
    42 bytes and a BLS key of at least 2 bytes, none of them holding a colon,
    joined by two colons; the validators are then built from the entries in
    order, all with the premine balance and the effective stake. *)
Theorem getValidatorAccounts_cli (env : ManifestEnv) (p : manifestInitParams)
    (vs : list Validator) :
  validators p ≠ [] →
  (getValidatorAccounts env p = ROk vs
   ↔ ∃ stk es,
       effectiveStake p = Some stk
       ∧ validators p = map cliEntry es
       ∧ Forall cliEntryOk es
       ∧ vs = map (cliValidator env (premineBalance p) stk) es).
Proof.
  intros Hne. split.
  - intros H. destruct (effectiveStake p) as [stk|] eqn:Hs.
    + rewrite (getValidatorAccounts_cli_run env p stk Hne Hs) in H.
      destruct (parseValidators _ _ _ _) as [|vs'] eqn:E; [discriminate|].
      injection H as <-.
      apply parseValidators_inr in E as (es & ? & ? & ?).
      exists stk, es. auto.
    + unfold getValidatorAccounts in H. rewrite Hs in H. discriminate.
  - intros (stk & es & Hs & E & Hes & ->).
    rewrite (getValidatorAccounts_cli_run env p stk Hne Hs).
    rewrite (proj2 (parseValidators_inr env _ stk _ _))
      by (exists es; eauto).
    reflexivity.
Qed.

(** X2. The first entry that does not hold exactly two colons stops
    [getValidatorAccounts] with the error that reports the number of parts,
    one more than the number of colons of that entry; the entries after it
    are not looked at. *)
Theorem getValidatorAccounts_wrong_parts (env : ManifestEnv)
    (p : manifestInitParams) (stk : Z)
    (pre : list (string * string * string)) (bad : string)
    (post : list string) :
  effectiveStake p = Some stk →
  validators p = map cliEntry pre ++ bad :: post →
  Forall cliEntryOk pre →
  gostrings.count colon bad ≠ 2%nat →
  getValidatorAccounts env p
  = RErr (ErrParts (S (gostrings.count colon bad))).
Proof.
  intros Hs Hv Hpre Hbad.
  rewrite (getValidatorAccounts_cli_run env p stk) by
    (rewrite ?Hv; auto; destruct pre; discriminate).
  rewrite Hv, (parseValidators_first_error env _ stk pre bad post
                 (ErrParts (S (gostrings.count colon bad)))); auto.
  unfold parseValidator. pose proof (Split_length bad colon) as Hl.
  destruct (gostrings.Split bad colon) as [|a [|b [|d [|? ?]]]];
    simpl in *; first [lia | f_equal; f_equal; lia].
Qed.

(** X3. An entry of three parts is checked part by part: the node id first,
    then the address, then the BLS key, and the error names the first part
    of the wrong length. *)
Theorem getValidatorAccounts_wrong_length (env : ManifestEnv)
    (p : manifestInitParams) (stk : Z)
    (pre : list (string * string * string)) (nodeID addr blsKey : string)
    (post : list string) :
  effectiveStake p = Some stk →
  validators p = map cliEntry pre ++ cliEntry (nodeID, addr, blsKey) :: post →
  Forall cliEntryOk pre →
  gostrings.count colon nodeID = 0%nat →
  gostrings.count colon addr = 0%nat →
  gostrings.count colon blsKey = 0%nat →
  ¬ cliEntryOk (nodeID, addr, blsKey) →
  getValidatorAccounts env p
  = RErr (if negb (String.length nodeID =? nodeIDLength)%nat
          then ErrNodeID nodeID
          else if negb (String.length addr =? ecdsaAddressLength)%nat
          then ErrAddress addr
          else ErrBlsKey blsKey).
Proof.
  intros Hs Hv Hpre Hn Ha Hb Hbad.
  rewrite (getValidatorAccounts_cli_run env p stk) by
    (rewrite ?Hv; auto; destruct pre; discriminate).
  rewrite Hv.
  erewrite parseValidators_first_error; [reflexivity|exact Hpre|].
  unfold parseValidator, cliEntry.
  rewrite (proj2 (Split_three _ nodeID addr blsKey colon)) by auto.
  destruct (Nat.eqb_spec (String.length nodeID) nodeIDLength) as [Ln|];
    [|reflexivity].
  destruct (Nat.eqb_spec (String.length addr) ecdsaAddressLength) as [La|];
    [|reflexivity].
  destruct (Nat.ltb_spec (String.length blsKey) blsKeyLength) as [|Lb];
    [reflexivity|].
  exfalso. apply Hbad. simpl. auto 10.
Qed.

Lemma getValidatorAccounts_funds_all (env : ManifestEnv)
    (p : manifestInitParams) (vs : list Validator) :
  getValidatorAccounts env p = ROk vs →
  ∃ stk, effectiveStake p = Some stk
         ∧ Forall (fun v => Balance v = premineBalance p
                            ∧ Stake v = Some stk) vs.
Proof.
  unfold getValidatorAccounts.
  destruct (effectiveStake p) as [stk|]; [|discriminate].
  intros H. exists stk. split; [reflexivity|].
  destruct (0 <? length (validators p))%nat.
  - destruct (parseValidators _ _ _ _) as [|vs'] eqn:E; [discriminate|].
    injection H as <-.
    apply parseValidators_inr in E as (es & _ & _ & ->).
    apply Forall_map, Forall_forall. intros [[a b] d] _. simpl. auto.
  - destruct (ReadValidatorsByPrefix _ _ _) as [|read]; [discriminate|].
    injection H as <-.
    apply Forall_map, Forall_forall. intros v _. simpl. auto.
Qed.

(** X4. Whatever the source of the validators, every validator that
    [getValidatorAccounts] returns has the premine balance as its balance
    and the effective stake as its stake. *)
Theorem getValidatorAccounts_funds (env : ManifestEnv)
    (p : manifestInitParams) (vs : list Validator) :
  getValidatorAccounts env p = ROk vs →
  ∃ stk, effectiveStake p = Some stk
         ∧ Forall (fun v => Balance v = premineBalance p
                            ∧ Stake v = Some stk) vs.
Proof. apply getValidatorAccounts_funds_all. Qed.

Lemma validateFlags_cases (env : ManifestEnv) (p p' : manifestInitParams)
    (r : option ManifestError) :
  validateFlags env p = (p', r) →
  match r with
  | Some _ => p' = p
  | None =>
      ∃ b,
        statNotExist env (validatorsPath p) = false
        ∧ ParseUint256orHex env (premineValidators p) = inr b
        ∧ p' = mkParams (manifestPath p) (validatorsPath p)
                 (validatorsPrefixPath p) (premineValidators p) (Some b)
                 (stakeRaw p) (stake p') (validators p)
        ∧ match stake p' with
          | None => stakeRaw p = EmptyString
          | Some s =>
              stakeRaw p ≠ EmptyString
              ∧ ParseUint256orHex env (stakeRaw p) = inr s
              ∧ s <= b
          end
  end.
Proof.
  unfold validateFlags.
  destruct (statNotExist env (validatorsPath p)); [intros [= <- <-]; auto|].
  destruct (ParseUint256orHex env (premineValidators p)) as [e|b];
    [intros [= <- <-]; auto|].
  destruct (String.eqb_spec (stakeRaw p) EmptyString) as [Hs|Hs].
  - intros [= <- <-]. exists b. simpl. auto.
  - destruct (ParseUint256orHex env (stakeRaw p)) as [e|s] eqn:Es;
      [intros [= <- <-]; auto|].
    destruct (Z.gtb_spec s b); intros [= <- <-]; [reflexivity|].
    exists b. simpl. repeat split; auto.
Qed.

(** X5. After [validateFlags] has succeeded, [getValidatorAccounts] does not
    panic, and every validator it returns has a balance and a stake with the
    stake not greater than the balance. *)
Theorem validated_stake_le_balance (env : ManifestEnv)
    (p p' : manifestInitParams) :
  validateFlags env p = (p', None) →
  getValidatorAccounts env p' ≠ RPanic
  ∧ ∀ vs, getValidatorAccounts env p' = ROk vs →
          Forall (fun v => ∃ b s, Balance v = Some b ∧ Stake v = Some s
                                  ∧ s <= b) vs.
Proof.
  intros H. apply validateFlags_cases in H as (b & _ & _ & Hp & Hst).
  assert (premineBalance p' = Some b) as Hb by (rewrite Hp; reflexivity).
  assert (∃ s, effectiveStake p' = Some s ∧ s <= b) as (s & Hs & Hle).
  { unfold effectiveStake. destruct (stake p') as [s|].
    - exists s. tauto.
    - exists b. rewrite Hb. split; [reflexivity|lia]. }
  split.
  - unfold getValidatorAccounts. rewrite Hs.
    destruct (0 <? length (validators p'))%nat.
    + destruct (parseValidators _ _ _ _); discriminate.
    + destruct (ReadValidatorsByPrefix _ _ _); discriminate.
  - intros vs Hvs.
    apply getValidatorAccounts_funds_all in Hvs as (s' & Hs' & Hall).
    rewrite Hs in Hs'. injection Hs' as <-.
    eapply Forall_impl; [exact Hall|]. intros v [Hbal Hstk].
    exists b, s. rewrite Hbal, Hb. auto.
Qed.

Lemma parseValidators_env (env1 env2 : ManifestEnv) (balance : option Z)
    (stk : Z) (entries : list string) :
  (∀ a, StringToAddress env1 a = StringToAddress env2 a) →
  parseValidators env1 balance stk entries
  = parseValidators env2 balance stk entries.
Proof.
  intros Hsame. induction entries as [|entry rest IH]; [reflexivity|].
  simpl. rewrite IH.
  replace (parseValidator env1 balance stk entry)
    with (parseValidator env2 balance stk entry); [reflexivity|].
  unfold parseValidator.
  destruct (gostrings.Split entry colon) as [|a [|b [|d [|? ?]]]];
    try reflexivity.
  now rewrite Hsame.
Qed.

(** X6. Validators given on the command line take precedence: the result of
    [getValidatorAccounts] is then the same whatever the file system holds,
    that is for any two environments that convert addresses alike. *)
Theorem getValidatorAccounts_cli_precedence (env1 env2 : ManifestEnv)
    (p : manifestInitParams) :
  validators p ≠ [] →
  (∀ a, StringToAddress env1 a = StringToAddress env2 a) →
  getValidatorAccounts env1 p = getValidatorAccounts env2 p.
Proof.
  intros Hne Hsame. unfold getValidatorAccounts.
  destruct (effectiveStake p) as [stk|]; [|reflexivity].
  destruct (validators p) as [|entry rest] eqn:Hv; [contradiction|].
  change (0 <? length (entry :: rest))%nat with true. cbv iota.
  now rewrite (parseValidators_env env1 env2).
Qed.

(** X7. Without validators on the command line the validators are read
    from the validators path, or from the directory of the manifest path when
    the validators path is empty. An error of the reader is returned; the
    validators that were read are returned in order with their node id,
    address and BLS key, and an empty key store gives an empty list without
    an error. *)
Theorem getValidatorAccounts_from_store (env : ManifestEnv)
    (p : manifestInitParams) (stk : Z) :
  validators p = [] →
  effectiveStake p = Some stk →
  let dir :=
    if String.eqb (validatorsPath p) EmptyString
    then pathDir env (manifestPath p)
    else validatorsPath p in
  match ReadValidatorsByPrefix env dir (validatorsPrefixPath p) with
  | inl err => getValidatorAccounts env p = RErr (ErrReadValidators err)
  | inr read =>
      ∃ vs, getValidatorAccounts env p = ROk vs
            ∧ Forall2 (fun r v => NodeID v = NodeID r
                                  ∧ ValidatorAddress v = ValidatorAddress r
                                  ∧ BlsKey v = BlsKey r) read vs
  end.
Proof.
  intros Hv Hs dir. unfold getValidatorAccounts. rewrite Hs, Hv.
  change (0 <? length (@nil string))%nat with false. cbv iota. fold dir.
  destruct (ReadValidatorsByPrefix env dir (validatorsPrefixPath p))
    as [err|read]; [reflexivity|].
  eexists. split; [reflexivity|].
  induction read as [|r read IH]; simpl; constructor; auto.
Qed.

(** ** The generator of contract bindings *)

Lemma str_drop_append (p s : string) :
  gostrings.drop (String.length p) (p +:+ s) = s.
Proof. induction p as [|c p IH]; [reflexivity|exact IH]. Qed.

Lemma str_take_append (s x : string) :
  gostrings.take (String.length s) (s +:+ x) = s.
Proof.
  induction s as [|c s IH]; [destruct x; reflexivity|].
  rewrite str_append_cons. simpl. now rewrite IH.
Qed.

Lemma str_prefix_append (p s : string) : String.prefix p (p +:+ s) = true.
Proof.
  induction p as [|c p IH]; [destruct s; reflexivity|].
  rewrite str_append_cons. simpl.
  destruct (Ascii.ascii_dec c c); [exact IH|contradiction].
Qed.

(** Trimming a prefix that is there removes it. *)
Lemma TrimPrefix_append (p s : string) : gostrings.TrimPrefix (p +:+ s) p = s.
Proof.
  unfold gostrings.TrimPrefix, gostrings.HasPrefix.
  rewrite str_prefix_append. apply str_drop_append.
Qed.

(** Trimming a suffix that is there removes it. *)
Lemma TrimSuffix_append (s x : string) : gostrings.TrimSuffix (s +:+ x) x = s.
Proof.
  unfold gostrings.TrimSuffix, gostrings.HasSuffix.
  rewrite str_length_append.
  replace (String.length s + String.length x - String.length x)%nat
    with (String.length s) by lia.
  rewrite str_drop_append, String.eqb_refl, str_take_append.
  destruct (Nat.leb_spec (String.length x)
              (String.length s + String.length x)); [reflexivity|lia].
Qed.

(** X8. For a type with an internal type, the name that [getInternalType]
    returns holds no dot: what stands before the first dot, the interface of
    the struct, and what follows a second dot are dropped. *)
Theorem getInternalType_no_dot (env : GenEnv) (paramName : string)
    (t : AbiType) :
  InternalType t ≠ EmptyString →
  gostrings.count dot (getInternalType env paramName t) = 0%nat.
Proof.
  intros Hne. unfold getInternalType.
  destruct (String.eqb_spec (InternalType t) EmptyString); [contradiction|].
  set (it := gostrings.TrimPrefix _ _).
  pose proof (Split_parts it dot) as Hp.
  pose proof (Split_length it dot) as Hl.
  destruct (gostrings.Split it dot) as [|a [|b rest]]; simpl in *.
  - discriminate.
  - lia.
  - apply Forall_cons in Hp as [_ Hp]. apply Forall_cons in Hp as [Hb _].
    exact Hb.
Qed.

(** X9. The internal type [struct I.N[]] of an array of structs of an
    interface gives the name [N], whatever the name of the parameter; so
    does [struct N[]]. *)
Theorem getInternalType_struct (env : GenEnv) (paramName iface name : string)
    (t : AbiType) :
  gostrings.count dot iface = 0%nat →
  gostrings.count dot name = 0%nat →
  (InternalType t = "struct " +:+ iface +:+ String dot name +:+ "[]"
   ∨ InternalType t = "struct " +:+ name +:+ "[]") →
  getInternalType env paramName t = name.
Proof.
  intros Hi Hn Ht. unfold getInternalType.
  destruct (String.eqb_spec (InternalType t) EmptyString) as [E|_].
  { destruct Ht as [Ht|Ht]; rewrite Ht in E; discriminate. }
  destruct Ht as [-> | ->].
  - replace ("struct " +:+ iface +:+ String dot name +:+ "[]")
      with (("struct " +:+ iface +:+ String dot name) +:+ "[]")
      by (rewrite !str_append_assoc; reflexivity).
    rewrite TrimSuffix_append, TrimPrefix_append.
    rewrite Split_append by exact Hi. rewrite Split_no_sep by exact Hn.
    reflexivity.
  - replace ("struct " +:+ name +:+ "[]")
      with (("struct " +:+ name) +:+ "[]")
      by (rewrite !str_append_assoc; reflexivity).
    rewrite TrimSuffix_append, TrimPrefix_append.
    rewrite Split_no_sep by exact Hn. reflexivity.
Qed.

(** X10. [encodeFuncTuple] panics on a type that is not a tuple; on a tuple
    whose format is [tuple(] followed by a body and [)] it returns the
    body. *)
Theorem encodeFuncTuple_spec (t : AbiType) (body : string) :
  (KindOf t ≠ KindTuple → encodeFuncTuple t = RPanic)
  ∧ (KindOf t = KindTuple →
     Format t = "tuple(" +:+ body +:+ ")" →
     encodeFuncTuple t = ROk body).
Proof.
  unfold encodeFuncTuple. split.
  - intros H. destruct (KindOf t); try reflexivity. contradiction.
  - intros -> ->. simpl negb. cbv iota.
    rewrite TrimPrefix_append, TrimSuffix_append. reflexivity.
Qed.

(** Induction on a type description, with the hypothesis for the element
    of a slice or array and for every element of a tuple. *)
Lemma AbiType_nested_ind (P : AbiType → Prop) :
  (∀ k n e l g f i,
     (∀ sub, e = Some sub → P sub) →
     Forall (fun x : string * AbiType => P x.2) l →
     P (mkAbiType k n e l g f i)) →
  ∀ t, P t.
Proof.
  intros H. fix IH 1. intros [k n e l g f i]. apply H.
  - destruct e as [sub'|]; intros sub Heq; [|discriminate].
    injection Heq as <-. apply IH.
  - revert l. fix IHl 1. intros [|[nm x] l]; constructor.
    + apply IH.
    + apply IHl.
Qed.

Lemma genType_eq (env : GenEnv) (name : string) (obj : AbiType)
    (res : list string) :
  genType env name obj res
  = if negb (Kind_eqb (KindOf obj) KindTuple) then RPanic
    else
      match
        genFields env (genType env) (TupleElems obj)
          ["type " +:+ getInternalType env name obj +:+ " struct {"] res
      with
      | ROk (str, res) =>
          ROk (getInternalType env name obj,
               res ++ [gostrings.Join (str ++ ["}"]) NL])
      | RErr e => RErr e
      | RPanic => RPanic
      end.
Proof. destruct obj; reflexivity. Qed.

Lemma shiftRes_shiftRes {A : Type} (res added : list string)
    (r : gores unit (A * list string)) :
  shiftRes res (shiftRes added r) = shiftRes (res ++ added) r.
Proof. destruct r as [[x a]| |]; simpl; [now rewrite app_assoc|auto..]. Qed.

Lemma afterGenType_shift (env : GenEnv) (obj : AbiType) (res : list string)
    (r : gores unit (string * list string)) :
  afterGenType env obj (shiftRes res r)
  = shiftRes res (afterGenType env obj r).
Proof.
  destruct r as [[x a]| |]; simpl; [|reflexivity..].
  destruct (genAbiFuncsForNestedType env x); simpl; [|reflexivity..].
  now rewrite <- !app_assoc.
Qed.

Lemma genElemType_frame (env : GenEnv)
    (gen : string → AbiType → list string → gores unit (string * list string))
    (elemName : string) (elem : AbiType) (res : list string) :
  appendsOn gen elem →
  (∀ sub, Elem elem = Some sub → appendsOn gen sub) →
  genElemType env gen elemName elem res
  = shiftRes res (genElemType env gen elemName elem []).
Proof.
  intros He Hsub. unfold genElemType.
  destruct (Kind_eqb (KindOf elem) KindTuple).
  - rewrite (He elemName res). apply afterGenType_shift.
  - destruct elem as [k n inner l g f i].
    destruct (Kind_eqb k KindSlice || Kind_eqb k KindArray).
    + destruct inner as [sub|]; [|reflexivity].
      destruct (Kind_eqb (KindOf sub) KindTuple);
        [|simpl; now rewrite app_nil_r].
      rewrite (Hsub sub eq_refl _ res), afterGenType_shift.
      destruct (afterGenType env sub _) as [[t a]| |]; reflexivity.
    + destruct (Kind_eqb k KindAddress); simpl; now rewrite app_nil_r.
Qed.

Lemma genFields_frame (env : GenEnv)
    (gen : string → AbiType → list string → gores unit (string * list string))
    (elems : list (string * AbiType)) :
  Forall (fun x : string * AbiType =>
            appendsOn gen x.2
            ∧ ∀ sub, Elem x.2 = Some sub → appendsOn gen sub) elems →
  ∀ str res,
    genFields env gen elems str res
    = shiftRes res (genFields env gen elems str []).
Proof.
  induction 1 as [|[nm e] elems [He Hsub] _ IH]; intros str res; simpl.
  - now rewrite app_nil_r.
  - rewrite (genElemType_frame env gen nm e res He Hsub).
    destruct (genElemType env gen nm e []) as [[t a]| |]; simpl;
      [|reflexivity..].
    rewrite (IH _ (res ++ a)), (IH _ a). now rewrite shiftRes_shiftRes.
Qed.

Lemma genType_appendsOn (env : GenEnv) (t : AbiType) :
  appendsOn (genType env) t
  ∧ ∀ sub, Elem t = Some sub → appendsOn (genType env) sub.
Proof.
  induction t as [k n e l g f i IHe IHl] using AbiType_nested_ind.
  split; [|intros sub Hs; exact (proj1 (IHe sub Hs))].
  intros name res. rewrite !genType_eq.
  destruct (negb _); [reflexivity|]. simpl TupleElems.
  rewrite (genFields_frame env (genType env) l IHl _ res).
  destruct (genFields env (genType env) l _ []) as [[str a]| |]; simpl;
    [|reflexivity..].
  now rewrite app_assoc.
Qed.

(** X11. [genType] only appends to [res]: the entries that were there stay
    in front, and the name it returns and the entries it appends do not
    depend on them. *)
Theorem genType_frame (env : GenEnv) (name : string) (obj : AbiType)
    (res : list string) :
  genType env name obj res = shiftRes res (genType env name obj []).
Proof. apply genType_appendsOn. Qed.

Lemma nestedStructs_eq (t : AbiType) :
  nestedStructs t
  = list_sum (map (fun x : string * AbiType => elemStructs x.2)
                (TupleElems t)).
Proof. destruct t; reflexivity. Qed.

Lemma afterGenType_count (env : GenEnv) (name : string) (t : AbiType)
    (res res' : list string) (typ : string) :
  countsOn env t →
  afterGenType env t (genType env name t res) = ROk (typ, res') →
  length res' = (length res + 3 * S (nestedStructs t))%nat.
Proof.
  intros Hc. rewrite (proj1 (genType_appendsOn env t) name res).
  destruct (genType env name t []) as [[r a]| |] eqn:E; try discriminate.
  apply Hc in E. simpl.
  destruct (genAbiFuncsForNestedType env r); try discriminate.
  intros [= _ <-]. rewrite !length_app. simpl. lia.
Qed.

Lemma genElemType_count (env : GenEnv) (nm : string) (e : AbiType)
    (res res' : list string) (typ : string) :
  countsOn env e →
  (∀ sub, Elem e = Some sub → countsOn env sub) →
  genElemType env (genType env) nm e res = ROk (typ, res') →
  length res' = (length res + 3 * elemStructs e)%nat.
Proof.
  intros He Hsub. unfold genElemType, elemStructs.
  destruct (Kind_eqb (KindOf e) KindTuple).
  - apply afterGenType_count, He.
  - destruct e as [k n inner l g f i].
    destruct (Kind_eqb k KindSlice || Kind_eqb k KindArray).
    + destruct inner as [sub|]; [|discriminate].
      destruct (Kind_eqb (KindOf sub) KindTuple);
        [|intros [= _ <-]; lia].
      destruct (afterGenType env sub _) as [[t a]| |] eqn:E;
        try discriminate.
      apply afterGenType_count in E; [|apply Hsub; reflexivity].
      intros [= _ <-]. exact E.
    + destruct (Kind_eqb k KindAddress); intros [= _ <-]; lia.
Qed.

Lemma genFields_count (env : GenEnv) (elems : list (string * AbiType)) :
  Forall (fun x : string * AbiType =>
            countsOn env x.2
            ∧ ∀ sub, Elem x.2 = Some sub → countsOn env sub) elems →
  ∀ str res str' res',
    genFields env (genType env) elems str res = ROk (str', res') →
    length res'
    = (length res
       + 3 * list_sum (map (fun x : string * AbiType => elemStructs x.2)
                         elems))%nat
    ∧ ∃ lines, str' = str ++ lines ∧ length lines = length elems.
Proof.
  induction 1 as [|[nm e] elems [He Hsub] _ IH]; intros str res str' res';
    simpl.
  - intros [= <- <-]. split; [lia|]. exists []. now rewrite app_nil_r.
  - destruct (genElemType env (genType env) nm e res) as [[t a]| |] eqn:E;
      try discriminate.
    apply genElemType_count in E; [|exact He|exact Hsub].
    intros Hrest. apply IH in Hrest as [Hlen (lines & -> & Hlines)].
    split; [lia|].
    exists (fieldLine env nm t :: lines).
    rewrite <- app_assoc. simpl. split; [reflexivity|lia].
Qed.

Lemma genType_countsOn (env : GenEnv) (t : AbiType) :
  countsOn env t ∧ ∀ sub, Elem t = Some sub → countsOn env sub.
Proof.
  induction t as [k n e l g f i IHe IHl] using AbiType_nested_ind.
  split; [|intros sub Hs; exact (proj1 (IHe sub Hs))].
  intros name r added. rewrite genType_eq, nestedStructs_eq.
  destruct (negb _); [discriminate|]. simpl TupleElems.
  destruct (genFields env (genType env) l _ []) as [[str a]| |] eqn:E;
    try discriminate.
  apply (genFields_count env l IHl) in E as [Hlen _].
  intros [= _ <-]. rewrite length_app. simpl in *. lia.
Qed.

(** X12. When [genType] succeeds it returns the name that [getInternalType]
    gives, and it has appended three entries for each nested struct and then,
    last, the struct of the type itself: the opening line with that name, one
    line for each element of the tuple, and the closing brace. *)
Theorem genType_appended (env : GenEnv) (name : string) (obj : AbiType)
    (res res' : list string) (r : string) :
  genType env name obj res = ROk (r, res') →
  r = getInternalType env name obj
  ∧ ∃ nested lines,
      res' = res ++ nested
             ++ [gostrings.Join
                   (("type " +:+ r +:+ " struct {") :: lines ++ ["}"]) NL]
      ∧ length nested = (3 * nestedStructs obj)%nat
      ∧ length lines = length (TupleElems obj).
Proof.
  rewrite (proj1 (genType_appendsOn env obj) name res).
  destruct (genType env name obj []) as [[r0 added]| |] eqn:E;
    try discriminate.
  simpl. intros [= <- <-].
  pose proof (proj1 (genType_countsOn env obj) _ _ _ E) as Hcount.
  rewrite genType_eq in E.
  destruct (negb _); [discriminate|].
  destruct (genFields env (genType env) (TupleElems obj) _ [])
    as [[str a]| |] eqn:Ef; try discriminate.
  injection E as <- <-. split; [reflexivity|].
  assert (∃ lines,
            str = ["type " +:+ getInternalType env name obj +:+ " struct {"]
                  ++ lines
            ∧ length lines = length (TupleElems obj)) as (lines & -> & Hl).
  { assert (Forall (fun x : string * AbiType =>
                      countsOn env x.2
                      ∧ ∀ sub, Elem x.2 = Some sub → countsOn env sub)
              (TupleElems obj)) as Hall.
    { apply Forall_forall. intros x _. apply genType_countsOn. }
    apply (genFields_count env _ Hall) in Ef as [_ Hlines]. exact Hlines. }
  exists a, lines. rewrite length_app in Hcount. simpl in *.
  split; [reflexivity|]. split; [lia|exact Hl].
Qed.

Lemma genType_name (env : GenEnv) (name : string) (obj : AbiType)
    (res res' : list string) (r : string) :
  genType env name obj res = ROk (r, res') →
  r = getInternalType env name obj.
Proof.
  rewrite genType_eq. destruct (negb _); [discriminate|].
  destruct (genFields _ _ _ _ _) as [[str a]| |]; try discriminate.
  now intros [= <- _].
Qed.

(** X13. When [genNestedType] succeeds it returns the pointer type of the
    struct, whose name is not empty, and it has appended the entries of
    [genType] followed by the declaration of the ABI type of the struct and
    its encode and decode functions. *)
Theorem genNestedType_appended (env : GenEnv) (name : string) (obj : AbiType)
    (res res' : list string) (r : string) :
  genNestedType env name obj res = ROk (r, res') →
  let result := getInternalType env name obj in
  r = "*" +:+ result
  ∧ result ≠ EmptyString
  ∧ ∃ added funcs,
      res' = res ++ added
             ++ ["var " +:+ result +:+ "ABIType = abi.MustNewType(" +:+ DQ
                 +:+ Format obj +:+ DQ +:+ ")"; funcs]
      ∧ genAbiFuncsForNestedType env result = ROk funcs
      ∧ length added = (1 + 3 * nestedStructs obj)%nat.
Proof.
  unfold genNestedType.
  rewrite (proj1 (genType_appendsOn env obj) name res).
  destruct (genType env name obj []) as [[r0 a0]| |] eqn:E;
    try discriminate.
  pose proof (genType_name _ _ _ _ _ _ E) as ->.
  pose proof (proj1 (genType_countsOn env obj) _ _ _ E) as Hcount.
  simpl.
  destruct (genAbiFuncsForNestedType env (getInternalType env name obj))
    as [funcs| |] eqn:Ef; try discriminate.
  intros [= <- <-]. split; [reflexivity|]. split.
  - intros Hempty. rewrite Hempty in Ef. discriminate.
  - exists a0, funcs. rewrite <- !app_assoc. auto.
Qed.

Lemma str_prefix_iff (p s : string) :
  String.prefix p s = true ↔ ∃ r, s = p +:+ r.
Proof.
  split.
  - revert s. induction p as [|c p IH]; intros s H.
    + exists s. reflexivity.
    + destruct s as [|d s]; [discriminate|]. simpl in H.
      destruct (Ascii.ascii_dec c d) as [->|]; [|discriminate].
      destruct (IH s H) as [r ->]. exists r. reflexivity.
  - intros [r ->]. apply str_prefix_append.
Qed.

Lemma str_length_cons (c : ascii) (s : string) :
  String.length (String c s) = S (String.length s).
Proof. reflexivity. Qed.

Lemma str_prefix_cons (c d : ascii) (p s : string) :
  String.prefix (String c p) (String d s)
  = (if Ascii.ascii_dec c d then String.prefix p s else false).
Proof. reflexivity. Qed.

Lemma str_prefix_nil (s : string) : String.prefix EmptyString s = true.
Proof. destruct s; reflexivity. Qed.

Lemma replaceFrom_skip (old new q r : string) :
  gostrings.replaceFrom old new (String.length q) (q +:+ r)
  = gostrings.replaceFrom old new 0 r.
Proof.
  induction q as [|c q IH]; [reflexivity|].
  rewrite str_append_cons, str_length_cons. exact IH.
Qed.

Lemma replaceFrom_cons (old new : string) (c : ascii) (s : string) :
  gostrings.replaceFrom old new 0 (String c s)
  = if String.prefix old (String c s)
    then new +:+ gostrings.replaceFrom old new (String.length old - 1) s
    else String c (gostrings.replaceFrom old new 0 s).
Proof. reflexivity. Qed.

Lemma Replace_match (a : ascii) (o new r : string) :
  gostrings.Replace (String a o +:+ r) (String a o) new
  = new +:+ gostrings.Replace r (String a o) new.
Proof.
  unfold gostrings.Replace. rewrite str_append_cons, replaceFrom_cons.
  rewrite <- (str_append_cons a o r), str_prefix_append.
  rewrite str_length_cons, Nat.sub_succ, Nat.sub_0_r.
  now rewrite replaceFrom_skip.
Qed.

Lemma Replace_other (c : ascii) (s old new : string) :
  String.prefix old (String c s) = false →
  gostrings.Replace (String c s) old new
  = String c (gostrings.Replace s old new).
Proof.
  intros H. unfold gostrings.Replace. now rewrite replaceFrom_cons, H.
Qed.

Lemma Contains_cons (c : ascii) (s sub : string) :
  gostrings.Contains (String c s) sub
  = String.prefix sub (String c s) || gostrings.Contains s sub.
Proof. reflexivity. Qed.

Lemma count_zero_cons (a c : ascii) (s : string) :
  gostrings.count a (String c s) = 0%nat →
  c ≠ a ∧ gostrings.count a s = 0%nat.
Proof.
  simpl. destruct (Ascii.eqb_spec c a); [discriminate|]. auto.
Qed.

(** A string free of [a] in front of [X] holds no new occurrence of a
    string that starts with [a]. *)
Lemma Contains_free_append (a : ascii) (o q X : string) :
  gostrings.count a q = 0%nat →
  gostrings.Contains (q +:+ X) (String a o)
  = gostrings.Contains X (String a o).
Proof.
  induction q as [|c q IH]; [reflexivity|].
  intros H. apply count_zero_cons in H as [Hc Hq].
  rewrite str_append_cons, Contains_cons, str_prefix_cons.
  destruct (Ascii.ascii_dec a c) as [->|_]; [contradiction|].
  now rewrite IH.
Qed.

(** What the replacement starts with, as long as it is free of [a], is
    what the string started with. *)
Lemma Replace_prefix_free (a : ascii) (o n' : string) (s : string) :
  ∀ q, gostrings.count a q = 0%nat →
       String.prefix q
         (gostrings.Replace s (String a o) (String a n')) = true →
       String.prefix q s = true.
Proof.
  induction s as [|c s IH]; intros q Hq Hp; [exact Hp|].
  destruct q as [|d q]; [reflexivity|].
  apply count_zero_cons in Hq as [Hd Hq].
  destruct (String.prefix (String a o) (String c s)) eqn:Hm.
  - apply str_prefix_iff in Hm as [r Hr]. rewrite Hr, Replace_match in Hp.
    rewrite str_append_cons, str_prefix_cons in Hp.
    destruct (Ascii.ascii_dec d a); [contradiction|discriminate].
  - rewrite (Replace_other c s _ _ Hm), str_prefix_cons in Hp.
    rewrite str_prefix_cons.
    destruct (Ascii.ascii_dec d c); [|discriminate].
    now apply IH.
Qed.

(** After every occurrence of [a o] has been replaced by [a n'], none is
    left, when [a] occurs in neither [o] nor [n'] and [n'] does not start
    like [o]. *)
Lemma Replace_clean (a : ascii) (o n' : string) :
  gostrings.count a o = 0%nat →
  gostrings.count a n' = 0%nat →
  (∀ X, String.prefix o (n' +:+ X) = false) →
  ∀ n s, (String.length s ≤ n)%nat →
    gostrings.Contains (gostrings.Replace s (String a o) (String a n'))
      (String a o) = false.
Proof.
  intros Ho Hn Hdiff. induction n as [|n IH]; intros s Hlen.
  - destruct s; [reflexivity|rewrite str_length_cons in Hlen; lia].
  - destruct s as [|c s]; [reflexivity|].
    rewrite str_length_cons in Hlen.
    destruct (String.prefix (String a o) (String c s)) eqn:Hm.
    + apply str_prefix_iff in Hm as [r Hr]. rewrite Hr, Replace_match.
      rewrite str_append_cons in Hr. injection Hr as -> ->.
      rewrite str_length_append in Hlen.
      rewrite str_append_cons, Contains_cons, str_prefix_cons.
      destruct (Ascii.ascii_dec a a) as [_|]; [|contradiction].
      rewrite Hdiff, (Contains_free_append a o n' _ Hn). simpl orb.
      apply IH. lia.
    + rewrite (Replace_other c s _ _ Hm), Contains_cons.
      rewrite (IH s) by lia. rewrite orb_false_r, str_prefix_cons.
      destruct (Ascii.ascii_dec a c) as [<-|]; [|reflexivity].
      destruct (String.prefix o _) eqn:Hq; [|reflexivity].
      apply (Replace_prefix_free a o n' s o Ho) in Hq.
      rewrite str_prefix_cons in Hm.
      destruct (Ascii.ascii_dec a a); [congruence|contradiction].
Qed.

(** X14. The name of a generated struct field never holds [Id]: every
    occurrence is written [ID], whatever the title case of the name is. *)
Theorem fieldName_no_Id (env : GenEnv) (name : string) :
  gostrings.Contains (fieldName env name) "Id" = false.
Proof.
  unfold fieldName.
  apply (Replace_clean "I" "d" "D" eq_refl eq_refl (fun X => eq_refl)
           _ _ (Nat.le_refl _)).
Qed.

(** X15. The Go type of a generated struct field never holds the text
    "]uint8": a slice or an array of [uint8] is written as one of [byte],
    after an array of 32 of them has been written [types.Hash]. *)
Theorem fieldType_no_uint8_array (typ : string) :
  gostrings.Contains (fieldType typ) "]uint8" = false.
Proof.
  unfold fieldType.
  apply (Replace_clean "]" "uint8" "byte" eq_refl eq_refl (fun X => eq_refl)
           _ _ (Nat.le_refl _)).
Qed.

(** ** More on the signer *)

Section SignerMore.

Variable PrivateKey : Type.
Variable Encode : list RlpValue → list byte.
Variable Keccak256 : list byte → list byte.
Variable ec_sign : PrivateKey → list byte → option (list byte).
Variable ec_recover : list byte → list byte → option (list byte).

Lemma byte_of_Z_mod (a b : Z) :
  a mod 256 = b mod 256 → byte_of_Z a = byte_of_Z b.
Proof.
  intros H. apply byte_val_inj. now rewrite !byte_val_of_Z.
Qed.

(** X16. [Sender] reads V only through the low eight bits of its magnitude
    less 27: two transactions that differ in V alone are treated alike as
    soon as those bits agree. In particular V and -V, and V and V + 256, give
    the same result. *)
Theorem Sender_V_low_bits (t : Transaction) (v w : Z) :
  (Z.abs v - 27) mod 256 = (Z.abs w - 27) mod 256 →
  Sender Encode Keccak256 ec_recover (setV (Some v) t)
  = Sender Encode Keccak256 ec_recover (setV (Some w) t).
Proof.
  intros H. unfold Sender. cbn [txR txS txV setV].
  rewrite (senderParity_eq (Some v)), (senderParity_eq (Some w)).
  simpl default. rewrite (byte_of_Z_mod _ _ H).
  rewrite (Hash_fields Encode Keccak256 (setV (Some v) t) (setV (Some w) t))
    by reflexivity.
  reflexivity.
Qed.

(** X17. For every parity byte, not only 0 and 1, [CalculateV] returns the
    big-endian bytes of 27 plus the parity without a leading zero: one byte
    up to the parity 228 and two bytes above; the V handling of [Sender]
    gives the parity back. *)
Theorem CalculateV_every_parity (p : byte) :
  big.SetBytes (CalculateV p) = 27 + byte_val p
  ∧ canonical (CalculateV p)
  ∧ length (CalculateV p) = (if byte_val p <=? 228 then 1%nat else 2%nat)
  ∧ senderParity (Some (big.SetBytes (CalculateV p))) = p.
Proof.
  split; [rewrite CalculateV_value; lia|].
  split; [apply Bytes_canonical|].
  split; [destruct p; reflexivity|].
  apply senderParity_CalculateV.
Qed.

(** X18. When the signing primitive fails, [SignTx] returns its error and
    no transaction: the heap holds one more transaction, the copy, which
    equals the input with V, R and S as they were. When the primitive returns
    65 bytes or more, [SignTx] succeeds with the new location. *)
Theorem SignTx_outcome (tx : loc) (k : PrivateKey) (h : heap)
    (t : Transaction) :
  h !! tx = Some t →
  match ec_sign k (Hash Encode Keccak256 t) with
  | None =>
      SignTx PrivateKey Encode Keccak256 ec_sign tx k h
      = (<[fresh (dom h) := t]> h, Err SigningFailure)
  | Some sig =>
      (65 ≤ length sig)%nat →
      (SignTx PrivateKey Encode Keccak256 ec_sign tx k h).2
      = Ok (fresh (dom h))
  end.
Proof.
  intros Ht. unfold SignTx, Copy, Sign. rewrite Ht, lookup_insert_eq.
  destruct (ec_sign k (Hash Encode Keccak256 t)) as [sig|]; [|reflexivity].
  intros Hlen. rewrite !slice_Some by lia.
  destruct (sig !! 64%nat) as [p|] eqn:Hp; [reflexivity|].
  apply lookup_ge_None in Hp. lia.
Qed.

(** X19. [SignTx] discards a signature that the input carries: two
    transactions with the same unsigned fields are signed to the same
    transaction, whatever V, R and S they held. *)
Theorem SignTx_discards_signature (tx1 tx2 : loc) (k : PrivateKey)
    (h1 h2 h1' h2' : heap) (t1 t2 : Transaction) (r1 r2 : loc) :
  h1 !! tx1 = Some t1 →
  h2 !! tx2 = Some t2 →
  sameUnsigned t1 t2 →
  SignTx PrivateKey Encode Keccak256 ec_sign tx1 k h1 = (h1', Ok r1) →
  SignTx PrivateKey Encode Keccak256 ec_sign tx2 k h2 = (h2', Ok r2) →
  h1' !! r1 = h2' !! r2 ∧ is_Some (h1' !! r1).
Proof.
  intros H1 H2 Hsame E1 E2.
  apply SignTx_Ok_inv in E1
    as (t1' & sig1 & ra & sa & pa & Ht1 & Hs1 & Hra & Hsa & Hpa & -> & ->).
  apply SignTx_Ok_inv in E2
    as (t2' & sig2 & rb & sb & pb & Ht2 & Hs2 & Hrb & Hsb & Hpb & -> & ->).
  rewrite H1 in Ht1. injection Ht1 as <-.
  rewrite H2 in Ht2. injection Ht2 as <-.
  assert (Hash Encode Keccak256 t1 = Hash Encode Keccak256 t2) as Hh.
  { destruct Hsame as (Hn & Hp & Hg & Hto & Hv & Hi). apply Hash_fields.
    unfold txFields. now rewrite Hn, Hp, Hg, Hto, Hv, Hi. }
  rewrite Hh, Hs2 in Hs1. injection Hs1 as <-.
  rewrite Hrb in Hra. injection Hra as <-.
  rewrite Hsb in Hsa. injection Hsa as <-.
  rewrite Hpb in Hpa. injection Hpa as <-.
  rewrite !lookup_insert_eq. split; [|eauto].
  destruct Hsame as (Hn & Hp & Hg & Hto & Hv & Hi).
  destruct t1, t2. simpl in *. subst. reflexivity.
Qed.

End SignerMore.

(** ** The statements on the small instances *)

Lemma demoEntry_ok : cliEntryOk (demoNodeID, demoAddr, demoBls).
Proof. repeat split; vm_compute; lia. Qed.

Lemma getValidatorAccounts_cli_witness :
  validators (demoParams [cliEntry (demoNodeID, demoAddr, demoBls)]) ≠ []
  ∧ getValidatorAccounts demoManifestEnv
      (demoParams [cliEntry (demoNodeID, demoAddr, demoBls)])
    = ROk [cliValidator demoManifestEnv (Some 1000) 400
             (demoNodeID, demoAddr, demoBls)].
Proof.
  assert (validators (demoParams [cliEntry (demoNodeID, demoAddr, demoBls)])
          ≠ []) as H by discriminate.
  split; [exact H|].
  apply (proj2 (getValidatorAccounts_cli demoManifestEnv _ _ H)).
  exists 400, [(demoNodeID, demoAddr, demoBls)].
  split; [reflexivity|]. split; [reflexivity|].
  split; [|reflexivity]. constructor; [exact demoEntry_ok|constructor].
Defined.

Lemma getValidatorAccounts_wrong_parts_witness :
  gostrings.count colon "a:b" ≠ 2%nat
  ∧ getValidatorAccounts demoManifestEnv
      (demoParams [cliEntry (demoNodeID, demoAddr, demoBls); "a:b"])
    = RErr (ErrParts 2).
Proof.
  assert (gostrings.count colon "a:b" ≠ 2%nat) as H
    by (vm_compute; intros ?; discriminate).
  split; [exact H|].
  apply (getValidatorAccounts_wrong_parts demoManifestEnv _ 400
           [(demoNodeID, demoAddr, demoBls)] "a:b" []).
  - reflexivity.
  - reflexivity.
  - constructor; [exact demoEntry_ok|constructor].
  - exact H.
Defined.

Lemma getValidatorAccounts_wrong_length_witness :
  ¬ cliEntryOk ("short", demoAddr, demoBls)
  ∧ getValidatorAccounts demoManifestEnv
      (demoParams [cliEntry (demoNodeID, demoAddr, demoBls);
                   cliEntry ("short", demoAddr, demoBls)])
    = RErr (ErrNodeID "short").
Proof.
  assert (¬ cliEntryOk ("short", demoAddr, demoBls)) as H
    by (intros [Hlen _]; vm_compute in Hlen; discriminate).
  split; [exact H|].
  apply (getValidatorAccounts_wrong_length demoManifestEnv _ 400
           [(demoNodeID, demoAddr, demoBls)] "short" demoAddr demoBls []).
  - reflexivity.
  - reflexivity.
  - constructor; [exact demoEntry_ok|constructor].
  - reflexivity.
  - reflexivity.
  - reflexivity.
  - exact H.
Defined.

Lemma getValidatorAccounts_funds_witness :
  getValidatorAccounts demoManifestEnv (demoParams [])
  = ROk [mkValidator "node" [] "bls" (Some 1000) (Some 400)]
  ∧ ∃ stk, effectiveStake (demoParams []) = Some stk
           ∧ Forall (fun v => Balance v = premineBalance (demoParams [])
                              ∧ Stake v = Some stk)
               [mkValidator "node" [] "bls" (Some 1000) (Some 400)].
Proof.
  assert (getValidatorAccounts demoManifestEnv (demoParams [])
          = ROk [mkValidator "node" [] "bls" (Some 1000) (Some 400)]) as H
    by reflexivity.
  split; [exact H|].
  exact (getValidatorAccounts_funds demoManifestEnv (demoParams []) _ H).
Defined.

Lemma validated_stake_le_balance_witness :
  validateFlags demoManifestEnv demoFlags
  = (mkParams "./manifest.json" "keys" "test-chain-" "1000" (Some 1000)
       "400" (Some 400) [cliEntry (demoNodeID, demoAddr, demoBls)], None)
  ∧ getValidatorAccounts demoManifestEnv
      (mkParams "./manifest.json" "keys" "test-chain-" "1000" (Some 1000)
         "400" (Some 400) [cliEntry (demoNodeID, demoAddr, demoBls)])
    ≠ RPanic.
Proof.
  assert (validateFlags demoManifestEnv demoFlags
          = (mkParams "./manifest.json" "keys" "test-chain-" "1000"
               (Some 1000) "400" (Some 400)
               [cliEntry (demoNodeID, demoAddr, demoBls)], None)) as H
    by reflexivity.
  split; [exact H|].
  exact (proj1 (validated_stake_le_balance demoManifestEnv demoFlags _ H)).
Defined.

Lemma getValidatorAccounts_cli_precedence_witness :
  getValidatorAccounts demoManifestEnv
    (demoParams [cliEntry (demoNodeID, demoAddr, demoBls)])
  = getValidatorAccounts
      (mkManifestEnv (fun _ => true) (fun _ => inl "unused")
         (StringToAddress demoManifestEnv) (fun s => s)
         (fun _ _ => inl "unused"))
      (demoParams [cliEntry (demoNodeID, demoAddr, demoBls)]).
Proof.
  apply getValidatorAccounts_cli_precedence.
  - discriminate.
  - reflexivity.
Defined.

Lemma getValidatorAccounts_from_store_witness :
  validators (demoParams []) = []
  ∧ ∃ vs, getValidatorAccounts demoManifestEnv (demoParams []) = ROk vs
          ∧ Forall2 (fun r v => NodeID v = NodeID r
                                ∧ ValidatorAddress v = ValidatorAddress r
                                ∧ BlsKey v = BlsKey r)
              [mkValidator "node" [] "bls" None None] vs.
Proof.
  split; [reflexivity|].
  exact (getValidatorAccounts_from_store demoManifestEnv (demoParams []) 400
           eq_refl eq_refl).
Defined.

Lemma getInternalType_no_dot_witness :
  InternalType demoSlice ≠ EmptyString
  ∧ gostrings.count dot (getInternalType demoGenEnv "validators" demoSlice)
    = 0%nat.
Proof.
  assert (InternalType demoSlice ≠ EmptyString) as H by discriminate.
  split; [exact H|].
  exact (getInternalType_no_dot demoGenEnv "validators" demoSlice H).
Defined.

Lemma getInternalType_struct_witness :
  getInternalType demoGenEnv "validators" demoSlice = "Validator".
Proof.
  apply (getInternalType_struct demoGenEnv "validators" "ICheckpoint"
           "Validator" demoSlice).
  - reflexivity.
  - reflexivity.
  - left. reflexivity.
Defined.

Lemma encodeFuncTuple_spec_witness :
  encodeFuncTuple demoUint = RPanic
  ∧ encodeFuncTuple demoStruct = ROk "address _address,uint256 votingPower".
Proof.
  split.
  - apply (proj1 (encodeFuncTuple_spec demoUint EmptyString)). discriminate.
  - apply (proj2 (encodeFuncTuple_spec demoStruct
                    "address _address,uint256 votingPower")); reflexivity.
Defined.

Lemma genType_appended_witness :
  genType demoGenEnv "commitFunction" demoInputs ["old"]
  = ROk (demoGenerated.1, demoGenerated.2)
  ∧ demoGenerated.1 = getInternalType demoGenEnv "commitFunction" demoInputs
  ∧ ∃ nested lines,
      demoGenerated.2
      = ["old"] ++ nested
        ++ [gostrings.Join
              (("type " +:+ demoGenerated.1 +:+ " struct {")
               :: lines ++ ["}"]) NL]
      ∧ length nested = (3 * nestedStructs demoInputs)%nat
      ∧ length lines = length (TupleElems demoInputs).
Proof.
  assert (genType demoGenEnv "commitFunction" demoInputs ["old"]
          = ROk (demoGenerated.1, demoGenerated.2)) as H
    by (vm_compute; reflexivity).
  split; [exact H|].
  exact (genType_appended demoGenEnv "commitFunction" demoInputs ["old"]
           _ _ H).
Defined.

Lemma genNestedType_appended_witness :
  genNestedType demoGenEnv "v" demoStruct ["old"]
  = ROk ("*Validator",
         (match genNestedType demoGenEnv "v" demoStruct ["old"] with
          | ROk x => x.2
          | _ => []
          end))
  ∧ getInternalType demoGenEnv "v" demoStruct ≠ EmptyString.
Proof.
  assert (genNestedType demoGenEnv "v" demoStruct ["old"]
          = ROk ("*Validator",
                 (match genNestedType demoGenEnv "v" demoStruct ["old"] with
                  | ROk x => x.2
                  | _ => []
                  end))) as H by (vm_compute; reflexivity).
  split; [exact H|].
  exact (proj1 (proj2 (genNestedType_appended demoGenEnv "v" demoStruct
                         ["old"] _ _ H))).
Defined.

Lemma Sender_V_low_bits_witness :
  (Z.abs 283 - 27) mod 256 = (Z.abs 27 - 27) mod 256
  ∧ Sender demoEncode demoDigest demoRecover (setV (Some 283) demoSigned)
    = Sender demoEncode demoDigest demoRecover (setV (Some 27) demoSigned).
Proof.
  assert ((Z.abs 283 - 27) mod 256 = (Z.abs 27 - 27) mod 256) as H
    by reflexivity.
  split; [exact H|].
  exact (Sender_V_low_bits demoEncode demoDigest demoRecover demoSigned
           283 27 H).
Defined.

Lemma SignTx_outcome_witness :
  demoHeap !! 1%positive = Some demoTx
  ∧ (SignTx byte demoEncode demoDigest demoSign 1%positive Byte.x07
       demoHeap).2
    = Ok (fresh (dom demoHeap)).
Proof.
  assert (demoHeap !! 1%positive = Some demoTx) as H by reflexivity.
  split; [exact H|].
  refine (SignTx_outcome byte demoEncode demoDigest demoSign 1%positive
            Byte.x07 demoHeap demoTx H _).
  vm_compute. lia.
Defined.

Lemma SignTx_discards_signature_witness :
  let run1 :=
    SignTx byte demoEncode demoDigest demoSign 1%positive Byte.x07 demoHeap in
  let run2 :=
    SignTx byte demoEncode demoDigest demoSign 1%positive Byte.x07
      {[ 1%positive := setV (Some 99) demoSigned ]} in
  sameUnsigned demoTx (setV (Some 99) demoSigned)
  ∧ run1.1 !! 2%positive = run2.1 !! 2%positive
  ∧ is_Some (run1.1 !! 2%positive).
Proof.
  intros run1 run2.
  assert (sameUnsigned demoTx (setV (Some 99) demoSigned)) as Hs
    by (repeat split; reflexivity).
  split; [exact Hs|].
  apply (SignTx_discards_signature byte demoEncode demoDigest demoSign
           1%positive 1%positive Byte.x07 demoHeap
           {[ 1%positive := setV (Some 99) demoSigned ]} run1.1 run2.1
           demoTx (setV (Some 99) demoSigned) 2%positive 2%positive).
  - reflexivity.
  - reflexivity.
  - exact Hs.
  - vm_compute. reflexivity.
  - vm_compute. reflexivity.
Defined.
